(** * Siegfried: result reconciliation ([reader.Compare]) and the identifier
    loader registry ([core.LoadIdentifier])

    A shallow embedding of [cmd/internal/reader/compare.go] and of the
    registry part of [pkg/core/core.go], with the properties the
    specification states about them.

    Go values are embedded as follows.
    - A Go [string] is a sequence of bytes compared bytewise: Rocq's
      [string] (a list of 8-bit [ascii]) with [String.compare].
    - A slice is a [list]; an indexed store [s[i] = v] is stdpp's
      [<[i:=v]>], guarded by the bounds check that makes Go panic.
    - A Go [map[string][]string] is a [gmap string (list string)].
    - A run-time panic is the [Panic] outcome; a returned [error] is an
      ordinary value ([option error], [None] being Go's [nil]).
    - Calls that reach outside the function (opening a results file,
      [Reader.Next], the CSV writer, [fmt.Fprint]) are logged as events, so
      that the order of effects can be stated. *)

From Stdlib.Strings Require Import Ascii Byte.
From stdpp Require Import base strings list gmap sorting vector pretty.

Open Scope string_scope.
Open Scope list_scope.
Open Scope nat_scope.

(** ** Outcomes: normal return or run-time panic *)

Inductive outcome (A : Type) : Type :=
| Ret (a : A)
| Panic (msg : string).
Arguments Ret {A} a.
Arguments Panic {A} msg.

#[global] Instance outcome_ret : MRet outcome := fun A a => Ret a.
#[global] Instance outcome_bind : MBind outcome := fun A B k m =>
  match m with
  | Ret a => k a
  | Panic msg => Panic msg
  end.

(** The message of Go's bounds-check panic. *)
Definition index_out_of_range : string := "index out of range".

(** Go's [error] values are represented by their message. *)
Definition error : Type := string.

(** ** Library functions used by the two files *)

Module io.
(** [io.EOF], the error a reader returns at the normal end of its data. *)
Definition EOF : error := "EOF".
End io.

Module strings.

(** [strings.Join(elems, sep)] *)
Fixpoint Join (elems : list string) (sep : string) : string :=
  match elems with
  | [] => ""
  | [e] => e
  | e :: rest => e +:+ sep +:+ Join rest sep
  end.

End strings.

Module sort.

(** [sort.Strings(x)]: sorts a slice of strings in increasing bytewise
    order.  The order is total and antisymmetric, so the sorted
    arrangement of a given slice is unique (lemma [Strings_unique] below)
    and the choice of algorithm does not show in the result. *)
Definition Strings (x : list string) : list string :=
  merge_sort String.le x.

End sort.

(** ** pkg/core/core.go *)

Module signature.

(** Modelled from the spec: the [LoadSaver] of package [signature], declared
    outside the files at hand.  "A sequential cursor over a binary buffer
    with an internal sticky error state - once an error occurs, all
    subsequent reads are no-ops returning zero values"; a truncated buffer
    is one of the errors "captured as sticky state on the load cursor". *)
Record LoadSaver : Type := mkLoadSaver {
  buf : list byte;
  pos : nat;
  Err : option error
}.

Definition set_Err (ls : LoadSaver) (e : error) : LoadSaver :=
  mkLoadSaver (buf ls) (pos ls) (Some e).

Definition truncated : error := "overflowed expected length".

(** Modelled from the spec: [ls.LoadByte()], the read of one byte. *)
Definition LoadByte (ls : LoadSaver) : byte * LoadSaver :=
  match Err ls with
  | Some _ => (x00, ls)
  | None =>
      match buf ls !! pos ls with
      | Some b => (b, mkLoadSaver (buf ls) (S (pos ls)) None)
      | None => (x00, set_Err ls truncated)
      end
  end.

(** A cursor at the start of a buffer, without error. *)
Definition cursor (bs : list byte) : LoadSaver := mkLoadSaver bs 0 None.

End signature.

Module core.
Import signature.

(** [core.Identification] (lines 70-75): an interface of four methods
    without arguments.  An implementation is represented by what its
    methods return. *)
Record Identification : Type := mkIdentification {
  String : string;
  Yaml : string;
  Json : string;
  Csv : list string
}.

Section Registry.

(** The values implementing the [Identifier] interface (lines 28-34). *)
Context {Identifier : Type}.

(** [IdentifierLoader] (line 41).  A loader reads from the cursor it is
    given and may leave it changed; [None] is the nil [Identifier]. *)
Definition IdentifierLoader : Type :=
  LoadSaver -> outcome (option Identifier * LoadSaver).

(** The type of the package variable [loaders] (line 43): an array of
    exactly 8 loaders, each of which may be nil. *)
Definition loader_table : Type := vec (option IdentifierLoader) 8.

(** The initial value of [loaders]. *)
Definition loaders0 : loader_table := vreplicate 8 None.

(** [loaders[n]] for an [int] index: Go checks [n] against the length of
    the array and panics outside it. *)
Definition index (loaders : loader_table) (n : nat)
  : outcome (option IdentifierLoader) :=
  match decide (n < 8) with
  | left H => Ret (loaders !!! nat_to_fin H)
  | right _ => Panic index_out_of_range
  end.

(** [RegisterIdentifier] (lines 45-47) *)
Definition RegisterIdentifier (loaders : loader_table) (id : byte)
    (l : option IdentifierLoader) : outcome loader_table :=
  match decide (Byte.to_nat id < 8) with
  | left H => Ret (vinsert (nat_to_fin H) l loaders)
  | right _ => Panic index_out_of_range
  end.

Definition bad_identifier_loader : error := "bad identifier loader".

(** [LoadIdentifier] (lines 49-59) *)
Definition LoadIdentifier (loaders : loader_table) (ls : LoadSaver)
  : outcome (option Identifier * LoadSaver) :=
  let '(id, ls) := LoadByte ls in
  l ← index loaders (Byte.to_nat id);
  match l with
  | None =>
      let ls :=
        match Err ls with
        | None => set_Err ls bad_identifier_loader
        | Some _ => ls
        end in
      Ret (None, ls)
  | Some l => l ls
  end.

End Registry.

Arguments IdentifierLoader : clear implicits.
Arguments loader_table : clear implicits.

End core.

(** ** cmd/internal/reader/compare.go *)

Module reader.

(** Modelled from the spec: the [File] struct of package [reader], declared
    outside the files at hand.  "File {Path, Size, Mod, Hash, IDs}": the
    identity of a scanned item read from a result-file Reader.  [Size] is
    an [int64]; [Hash] is a byte slice, and [string(fi.Hash)] keeps its
    bytes, so that it is held as a [string] here. *)
Record File : Type := mkFile {
  Path : string;
  Size : Z;
  Mod : string;
  Hash : string;
  IDs : list core.Identification
}.

(** The zero [File], returned by [Next] together with an error. *)
Definition File_zero : File := mkFile "" 0 "" "" [].

(** Modelled from the spec: the [Reader] interface of package [reader],
    declared outside the files at hand.  "Next() -> (File,
    error|EndOfData), a restartable-once, forward-only, finite sequence
    per opened result-set path".  A reader is the finite sequence of
    entries it still yields, closed by the error it returns after them:
    [io.EOF] at the normal end of the data, or the error of the entry it
    could not parse. *)
Inductive Reader : Type :=
| Yield (f : File) (rest : Reader)
| Stop (e : error).

(** [rdr.Next()]: the entry and error returned, and the reader afterwards. *)
Definition Next (rdr : Reader) : File * option error * Reader :=
  match rdr with
  | Yield f rest => (f, None, rest)
  | Stop e => (File_zero, Some e, rdr)
  end.

(** The entries a reader yields before its first error. *)
Fixpoint entries (rdr : Reader) : list File :=
  match rdr with
  | Yield f rest => f :: entries rest
  | Stop _ => []
  end.

(** The error that ends a reader. *)
Fixpoint final (rdr : Reader) : error :=
  match rdr with
  | Yield _ rest => final rest
  | Stop e => e
  end.

(** The reader that yields the given entries and then [e]. *)
Fixpoint reader_of (fs : list File) (e : error) : Reader :=
  match fs with
  | [] => Stop e
  | f :: rest => Yield f (reader_of rest e)
  end.

(** What [Compare] calls but does not define: two functions of Go's
    library, the opening of a results file, and the writer it is handed.
    [Writer] is the state of [w] together with the [csv.Writer] wrapped
    around it. *)
Class World : Type := {
  (** [filepath.Base] *)
  Base : string -> string;
  (** [strconv.FormatInt(_, 10)], also the rendering of [%d] *)
  FormatInt : Z -> string;
  (** [Open(path)] *)
  Open : string -> error + Reader;
  Writer : Type;
  (** [wrt.Write(record)] *)
  csv_Write : Writer -> list string -> Writer * option error;
  (** [wrt.Flush()] *)
  csv_Flush : Writer -> Writer;
  (** [fmt.Fprint(w, s)] *)
  Fprint : Writer -> string -> Writer
}.

(** The calls [Compare] makes to the outside, in the order it makes them. *)
Inductive event : Type :=
| EvOpen (path : string)
| EvNext (i : nat)
| EvWrite (record : list string)
| EvFlush
| EvFprint (s : string).

#[global] Instance event_eq_dec : EqDecision event.
Proof. solve_decision. Defined.

(** The join strategies (lines 27-34); [join] is a Go [int]. *)
Module Join.
Definition Path : Z := 0.
Definition Filename : Z := 1.
Definition FilenameSize : Z := 2.
Definition FilenameMod : Z := 3.
Definition FilenameHash : Z := 4.
Definition Hash : Z := 5.
End Join.

(** [idStr] (lines 53-60) *)
Definition idStr (fi : File) : string :=
  let ids := core.String <$> IDs fi in
  let ids := sort.Strings ids in
  strings.Join ids ";".

(** [matches] (lines 62-73) *)
Definition matches (res : list string) : bool :=
  if decide (length res < 3) then false
  else
    let m := res !!! 1 in
    forallb (fun r => bool_decide (r = m)) (drop 2 res).

(** The sentinel of a column that no entry has filled (line 98). *)
Definition MISSING : string := "MISSING".

(** The marker printed when no record was written (line 117). *)
Definition COMPLETE_MATCH : string := "COMPLETE MATCH".

(** The two variables the loops of [Compare] build (lines 87-88): the keys
    in the order of their first appearance, and the row of every key. *)
Record Table : Type := mkTable {
  files : list string;
  results : gmap string (list string)
}.

Definition Table_empty : Table := mkTable [] ∅.

(** What a call of [Compare] leaves behind: the error returned ([None] is
    nil), the writer, and the calls made. *)
Record Run `{World} : Type := mkRun {
  ret : option error;
  out : Writer;
  log : list event
}.
Arguments mkRun {_} _ _ _.

Section Compare.
Context `{World}.

(** [keygen] (lines 36-51) *)
Definition keygen (join : Z) (fi : File) : string :=
  if decide (join = Join.Filename) then Base (Path fi)
  else if decide (join = Join.FilenameSize) then
    Base (Path fi) +:+ FormatInt (Size fi)
  else if decide (join = Join.FilenameMod) then Base (Path fi) +:+ Mod fi
  else if decide (join = Join.FilenameHash) then Base (Path fi) +:+ Hash fi
  else if decide (join = Join.Hash) then Hash fi
  else Path fi.

(** The error of line 77. *)
Definition too_few (n : nat) : error :=
  "at least two results files must be provided for comparison; got "
  +:+ FormatInt (Z.of_nat n).

(** The loop of lines 80-86: the readers opened, or the error of the
    first path that does not open. *)
Fixpoint open_all (paths : list string) : list event * (error + list Reader) :=
  match paths with
  | [] => ([], inr [])
  | v :: rest =>
      match Open v with
      | inl err => ([EvOpen v], inl err)
      | inr rdr =>
          let '(evs, r) := open_all rest in
          (EvOpen v :: evs,
           match r with
           | inl err => inl err
           | inr rdrs => inr (rdr :: rdrs)
           end)
      end
  end.

(** The body of the inner loop (lines 91-102) for the entry [f] of the
    reader of index [i], [n] being [len(readers)]. *)
Definition record_entry (join : Z) (n i : nat) (f : File) (t : Table)
  : outcome Table :=
  let key := keygen join f in
  let t :=
    match results t !! key with
    | Some _ => t
    | None =>
        let def := Path f :: replicate n MISSING in
        mkTable (files t ++ [key]) (<[key := def]> (results t))
    end in
  let row := results t !!! key in
  if decide (S i < length row) then
    Ret (mkTable (files t) (<[key := <[S i := idStr f]> row]> (results t)))
  else Panic index_out_of_range.

(** The inner loop (lines 90-103): [Next] is called until it returns an
    error, which ends the loop and is not looked at again. *)
Fixpoint drain (join : Z) (n i : nat) (rdr : Reader) (t : Table)
  : outcome (Table * list event) :=
  match rdr with
  | Yield f rest =>
      t ← record_entry join n i f t;
      '(t, evs) ← drain join n i rest t;
      Ret (t, EvNext i :: evs)
  | Stop _ => Ret (t, [EvNext i])
  end.

(** The outer loop (lines 89-104), from the reader of index [i] on. *)
Fixpoint consume (join : Z) (n i : nat) (readers : list Reader) (t : Table)
  : outcome (Table * list event) :=
  match readers with
  | [] => Ret (t, [])
  | rdr :: rest =>
      '(t, evs1) ← drain join n i rdr t;
      '(t, evs2) ← consume join n (S i) rest t;
      Ret (t, evs1 ++ evs2)
  end.

(** The output loop (lines 107-114): the writer, the calls made, the
    variable [complete], and the error that ended the loop if one did. *)
Fixpoint emit (results : gmap string (list string)) (fs : list string)
    (w : Writer) (complete : bool)
  : Writer * list event * bool * option error :=
  match fs with
  | [] => (w, [], complete, None)
  | f :: rest =>
      let row := results !!! f in
      if matches row then emit results rest w complete
      else
        let '(w, err) := csv_Write w row in
        match err with
        | Some err => (w, [EvWrite row], false, Some err)
        | None =>
            let '(w, evs, complete, err) := emit results rest w false in
            (w, EvWrite row :: evs, complete, err)
        end
  end.

(** Lines 87-119: [Compare] once its readers are open. *)
Definition reconcile (w : Writer) (join : Z) (readers : list Reader)
  : outcome (option error * Writer * list event) :=
  '(t, evs1) ← consume join (length readers) 0 readers Table_empty;
  let '(w, evs2, complete, err) := emit (results t) (files t) w true in
  match err with
  | Some err => Ret (Some err, w, evs1 ++ evs2)
  | None =>
      let w := csv_Flush w in
      if complete then
        Ret (None, Fprint w COMPLETE_MATCH,
             evs1 ++ evs2 ++ [EvFlush; EvFprint COMPLETE_MATCH])
      else Ret (None, w, evs1 ++ evs2 ++ [EvFlush])
  end.

(** [Compare] (lines 75-120) *)
Definition Compare (w : Writer) (join : Z) (paths : list string)
  : outcome Run :=
  if decide (length paths < 2) then
    Ret (mkRun (Some (too_few (length paths))) w [])
  else
    let '(evs0, r) := open_all paths in
    match r with
    | inl err => Ret (mkRun (Some err) w evs0)
    | inr readers =>
        '(err, w, evs) ← reconcile w join readers;
        Ret (mkRun err w (evs0 ++ evs))
    end.

End Compare.

End reader.

(** ** What the statements below speak about *)

Module facts.
Import reader.

(** The entries of the readers in the order the loops of [Compare] meet
    them, each with the index of its reader, from index [i] on. *)
Fixpoint tagged (i : nat) (readers : list Reader) : list (nat * File) :=
  match readers with
  | [] => []
  | rdr :: rest => (pair i <$> entries rdr) ++ tagged (S i) rest
  end.

(** The elements of a list in the order of their first appearance. *)
Fixpoint first_seen (l : list string) : list string :=
  match l with
  | [] => []
  | x :: rest => x :: filter (fun y => y ≠ x) (first_seen rest)
  end.

(** The first, and the last, entry of a list that has the given key. *)
Definition first_with `{World} (join : Z) (key : string) (es : list File)
  : option File :=
  head (filter (fun f => keygen join f = key) es).

Definition last_with `{World} (join : Z) (key : string) (es : list File)
  : option File :=
  last (filter (fun f => keygen join f = key) es).

(** The records handed to [wrt.Write] in a log, in order. *)
Definition written (evs : list event) : list (list string) :=
  omap (fun ev => match ev with EvWrite r => Some r | _ => None end) evs.

(** The rows of a table in the order of [files]. *)
Definition rows (t : Table) : list (list string) :=
  (fun key => results t !!! key) <$> files t.

(** The rows of a table that do not match. *)
Definition mismatches (t : Table) : list (list string) :=
  filter (fun row => matches row = false) (rows t).

(** The error of the first of the given records that the writer refuses,
    the records being written one after the other. *)
Fixpoint first_write_error `{World} (w : Writer) (records : list (list string))
  : option error :=
  match records with
  | [] => None
  | r :: rest =>
      match csv_Write w r with
      | (_, Some err) => Some err
      | (w, None) => first_write_error w rest
      end
  end.

(** A sorted list without the repetitions of its elements. *)
Fixpoint dedup_sorted (l : list string) : list string :=
  match l with
  | [] => []
  | x :: rest =>
      match rest with
      | y :: _ => if decide (x = y) then dedup_sorted rest
                  else x :: dedup_sorted rest
      | [] => [x]
      end
  end.

(** The column text as the specification words it: "the semicolon-joined,
    lexicographically-sorted, deduplicated-by-sort list of identification
    identity strings". *)
Definition idStr_spec (fi : File) : string :=
  strings.Join (dedup_sorted (sort.Strings (core.String <$> IDs fi))) ";".

(** The columns of a row after the path that do not hold the sentinel. *)
Definition non_missing (row : list string) : list string :=
  filter (fun c => c ≠ MISSING) (drop 1 row).

(** All the elements of a list are the same text. *)
Definition identical (cols : list string) : Prop :=
  ∀ a b, a ∈ cols → b ∈ cols → a = b.

(** The state of the loops after the given entries: the body of the inner
    loop applied to them in order. *)
Fixpoint after `{World} (join : Z) (n : nat) (es : list (nat * File)) (t : Table)
  : outcome Table :=
  match es with
  | [] => Ret t
  | (i, f) :: rest => t ← record_entry join n i f t; after join n rest t
  end.

(** The keys of the given entries, in order. *)
Definition keys_of `{World} (join : Z) (es : list (nat * File)) : list string :=
  (fun p => keygen join p.2) <$> es.

(** Among the given entries, those of the reader of index [j]. *)
Definition of_set (j : nat) (es : list (nat * File)) : list File :=
  snd <$> filter (fun p => p.1 = j) es.

(** The column of reader [j] in the row of [key]: the text of the last
    entry of that reader with that key, or the sentinel. *)
Definition column `{World} (join : Z) (key : string) (es : list (nat * File))
    (j : nat) : string :=
  match last_with join key (of_set j es) with
  | Some f => idStr f
  | None => MISSING
  end.

(** The row of [key] once the given entries are recorded, if the key
    occurs among them. *)
Definition row_of `{World} (join : Z) (n : nat) (key : string)
    (es : list (nat * File)) : option (list string) :=
  f0 ← first_with join key (snd <$> es);
  Some (Path f0 :: (column join key es <$> seq 0 n)).

(** The table holds the rows of exactly the given entries. *)
Definition represents `{World} (join : Z) (n : nat) (es : list (nat * File))
    (t : Table) : Prop :=
  files t = first_seen (keys_of join es) ∧
  ∀ key, results t !! key = row_of join n key es.

(** The calls of [Next] made on the readers from index [i] on: one for
    every entry and one for the error that ends the reader. *)
Fixpoint nexts (i : nat) (readers : list Reader) : list event :=
  match readers with
  | [] => []
  | rdr :: rest =>
      replicate (S (length (entries rdr))) (EvNext i) ++ nexts (S i) rest
  end.

Definition is_open (ev : event) : Prop :=
  match ev with EvOpen _ => True | _ => False end.

Definition is_next (ev : event) : Prop :=
  match ev with EvNext _ => True | _ => False end.

(** The table [Compare] has built when its reading loops end. *)
Definition table_of `{World} (join : Z) (readers : list Reader) : outcome Table :=
  after join (length readers) (tagged 0 readers) Table_empty.

(** The records handed to [wrt.Write], up to the first one refused. *)
Fixpoint attempted `{World} (w : Writer) (records : list (list string))
  : list (list string) :=
  match records with
  | [] => []
  | r :: rest =>
      match csv_Write w r with
      | (_, Some _) => [r]
      | (w, None) => r :: attempted w rest
      end
  end.

(** The writer after these writes. *)
Fixpoint write_all `{World} (w : Writer) (records : list (list string))
  : Writer :=
  match records with
  | [] => w
  | r :: rest =>
      match csv_Write w r with
      | (w, Some _) => w
      | (w, None) => write_all w rest
      end
  end.

(** The calls that end a run in which the writes ended with [err] and
    [ms] are the rows that do not match. *)
Definition closing (err : option error) (ms : list (list string)) : list event :=
  match err with
  | Some _ => []
  | None =>
      EvFlush :: if decide (ms = []) then [EvFprint COMPLETE_MATCH] else []
  end.

(** The writer at the end of such a run. *)
Definition closed `{World} (w : Writer) (ms : list (list string)) : Writer :=
  match first_write_error w ms with
  | Some _ => write_all w ms
  | None =>
      let w := csv_Flush (write_all w ms) in
      if decide (ms = []) then Fprint w COMPLETE_MATCH else w
  end.

(** The cell of a reader in the row of [key]: the text of its last entry
    with that key, or the sentinel when it has none. *)
Definition cell `{World} (join : Z) (key : string) (rdr : Reader) : string :=
  match last_with join key (entries rdr) with
  | Some f => idStr f
  | None => MISSING
  end.

(** Two entries that the loops of [Compare] cannot tell apart: the same
    key, the same path and the same column text. *)
Definition alike `{World} (join join' : Z) (f f' : File) : Prop :=
  keygen join f = keygen join' f' ∧ Path f = Path f' ∧ idStr f = idStr f'.

(** Readers whose entries are alike one by one. *)
Definition readers_alike `{World} (join join' : Z) (readers readers' : list Reader)
  : Prop :=
  Forall2 (fun rdr rdr' => Forall2 (alike join join') (entries rdr) (entries rdr'))
          readers readers'.

(** A text that is not empty and holds no semicolon. *)
Fixpoint has_semicolon (s : string) : bool :=
  match s with
  | EmptyString => false
  | String.String c rest => bool_decide (c = ";"%char) || has_semicolon rest
  end.

Definition plain (s : string) : Prop := s ≠ "" ∧ has_semicolon s = false.

(** The readers of the given paths, for the paths that open. *)
Definition opened `{World} (paths : list string) : list Reader :=
  omap (fun p => match Open p with inr rdr => Some rdr | inl _ => None end)
       paths.

(** The readers as far as they are read when the loops have gone through
    the readers [before] and the entries [fs] of the next one. *)
Definition cut (before : list Reader) (fs : list File) : list Reader :=
  before ++ [reader_of fs io.EOF].

(** The loops of lines 89-104 taken up again inside the reader of index
    [i], of which [rdr] is what is left, before the readers [rest]. *)
Definition resume `{World} (join : Z) (n i : nat) (rdr : Reader)
    (rest : list Reader) (t : Table) : outcome Table :=
  '(t, _) ← drain join n i rdr t;
  '(t, _) ← consume join n (S i) rest t;
  Ret t.

End facts.

(** ** A concrete world: Unix paths, decimal numbers, result sets held in
    memory, and a writer that collects what it is given *)

Module sample.
Import reader.

Definition is_sep (c : ascii) : bool := bool_decide (c = "/"%char).

Fixpoint drop_seps (l : list ascii) : list ascii :=
  match l with
  | c :: rest => if is_sep c then drop_seps rest else l
  | [] => []
  end.

Fixpoint upto_sep (l : list ascii) : list ascii :=
  match l with
  | c :: rest => if is_sep c then [] else c :: upto_sep rest
  | [] => []
  end.

(** [filepath.Base] on Unix: trailing separators are dropped, the last
    element is kept; the empty path gives ".", a path of separators "/". *)
Definition unix_Base (path : string) : string :=
  if decide (path = "") then "."
  else
    let stripped := drop_seps (rev (String.list_ascii_of_string path)) in
    let elem := rev (upto_sep stripped) in
    if decide (elem = []) then "/" else String.string_of_list_ascii elem.

(** What the collecting writer holds: the records written and not yet
    flushed, the text that reached [w], and the number of records it still
    accepts before [wrt.Write] fails. *)
Record collector : Type := mkCollector {
  pending : list (list string);
  reached : list (list string);
  printed : list string;
  credit : nat
}.

Definition write_failed : error := "short write".

Definition collect_Write (w : collector) (r : list string)
  : collector * option error :=
  match credit w with
  | O => (w, Some write_failed)
  | S c => (mkCollector (pending w ++ [r]) (reached w) (printed w) c, None)
  end.

Definition collect_Flush (w : collector) : collector :=
  mkCollector [] (reached w ++ pending w) (printed w) (credit w).

Definition collect_Fprint (w : collector) (s : string) : collector :=
  mkCollector (pending w) (reached w) (printed w ++ [s]) (credit w).

(** A fresh writer that accepts [c] records. *)
Definition fresh (c : nat) : collector := mkCollector [] [] [] c.

Definition no_such_file : error := "no such file or directory".

(** The world in which the results files are the given ones. *)
Definition world (fs : list (string * Reader)) : World := {|
  Base := unix_Base;
  FormatInt := pretty;
  Open := fun path =>
    match list_to_map (M := gmap string Reader) fs !! path with
    | Some rdr => inr rdr
    | None => inl no_such_file
    end;
  Writer := collector;
  csv_Write := collect_Write;
  csv_Flush := collect_Flush;
  Fprint := collect_Fprint
|}.

Definition ident (s : string) : core.Identification :=
  core.mkIdentification s "" "" [].

(** An entry with the given path and identifications. *)
Definition entry (path : string) (ids : list string) : File :=
  mkFile path 0 "" "" (ident <$> ids).

(** An entry with a path, a hash and identifications. *)
Definition hashed (path hash : string) (ids : list string) : File :=
  mkFile path 0 "" hash (ident <$> ids).

(** A results file read to its end. *)
Definition whole (fs : list File) : Reader := reader_of fs io.EOF.

(** A results file whose last entry cannot be parsed. *)
Definition parse_error : error := "record on line 3: wrong number of fields".
Definition broken (fs : list File) : Reader := reader_of fs parse_error.

(** Result sets used in the examples. *)
Definition set_a : Reader :=
  whole [entry "x" ["fmt/1"]; entry "/d/y" ["b"; "a"; "a"]].
Definition set_b : Reader := whole [entry "x" ["fmt/2"]].
Definition set_c : Reader := whole [entry "x" ["fmt/1"]].
Definition set_empty : Reader := whole [].
Definition set_damaged : Reader := broken [entry "x" ["fmt/1"]].
Definition set_twice : Reader :=
  whole [hashed "/a/x" "h1" ["fmt/1"]; hashed "/b/x" "h1" ["fmt/3"; "fmt/2"]].

Definition set_first : Reader := whole [hashed "/z/x" "h1" ["fmt/1"]].

Definition disk : World :=
  world [("a.csv", set_a); ("b.csv", set_b); ("c.csv", set_c);
         ("empty.csv", set_empty); ("damaged.csv", set_damaged);
         ("twice.csv", set_twice); ("first.csv", set_first)].

(** A registry as the program has it once its one identifier type is
    registered: the loader of tag [Pronom] (0), and seven nil slots. *)
Definition Pronom : byte := x00.

Definition pronom_loader : core.IdentifierLoader string :=
  fun ls => Ret (Some "pronom", ls).

Definition registry : core.loader_table string :=
  match core.RegisterIdentifier core.loaders0 Pronom (Some pronom_loader) with
  | Ret loaders => loaders
  | Panic _ => core.loaders0
  end.

End sample.

Import signature core reader facts.

(** ** Sorting and joining *)

Lemma Strings_sorted (x : list string) : Sorted String.le (sort.Strings x).
Proof. unfold sort.Strings. apply (Sorted_merge_sort String.le). Qed.

Lemma Strings_perm (x : list string) : sort.Strings x ≡ₚ x.
Proof. unfold sort.Strings. apply merge_sort_Permutation. Qed.

(** The sorted arrangement is unique: whatever algorithm [sort.Strings]
    runs, it ends with this list. *)
Lemma Strings_unique (x l : list string) :
  Sorted String.le l → l ≡ₚ x → l = sort.Strings x.
Proof.
  intros Hs Hp. apply (Sorted_unique String.le); auto using Strings_sorted.
  by rewrite Hp, Strings_perm.
Qed.

Lemma Strings_of_perm (x y : list string) :
  x ≡ₚ y → sort.Strings x = sort.Strings y.
Proof.
  intros Hp. apply Strings_unique; [apply Strings_sorted|].
  by rewrite Strings_perm.
Qed.

Lemma idStr_of_perm (fi fi' : File) :
  IDs fi ≡ₚ IDs fi' → idStr fi = idStr fi'.
Proof.
  intros Hp. unfold idStr. f_equal. apply Strings_of_perm.
  by rewrite Hp.
Qed.

(** ** Rows that match *)

Lemma matches_spec (res : list string) :
  matches res = true ↔
  3 ≤ length res ∧ ∀ j c, 2 ≤ j → res !! j = Some c → res !! 1 = Some c.
Proof.
  unfold matches. case_decide as Hlen.
  { split; [done | lia]. }
  destruct res as [|p [|m rest]]; simpl in *; try lia.
  rewrite forallb_forall. split.
  - intros Hall. split; [lia|]. intros j c Hj Hc.
    destruct j as [|[|j]]; try lia. simpl in Hc.
    apply list_elem_of_lookup_2, list_elem_of_In, Hall in Hc.
    apply bool_decide_eq_true in Hc. by subst.
  - intros [_ Hall] c Hc. apply bool_decide_eq_true.
    apply list_elem_of_In, list_elem_of_lookup_1 in Hc as [j Hj].
    specialize (Hall (S (S j)) c). simpl in Hall.
    assert (Some m = Some c) as [= ->] by (apply Hall; [lia | done]). done.
Qed.

(** ** Keys in the order of their first appearance *)

Lemma elem_of_first_seen (l : list string) (x : string) :
  x ∈ first_seen l ↔ x ∈ l.
Proof.
  induction l as [|a l IH]; simpl; [done|].
  rewrite !elem_of_cons, list_elem_of_filter, IH.
  destruct (decide (x = a)); tauto.
Qed.

Lemma NoDup_first_seen (l : list string) : NoDup (first_seen l).
Proof.
  induction l as [|a l IH]; simpl; [constructor|].
  constructor.
  - rewrite list_elem_of_filter. tauto.
  - by apply NoDup_filter.
Qed.

Lemma first_seen_snoc (l : list string) (x : string) :
  first_seen (l ++ [x]) =
  if decide (x ∈ l) then first_seen l else first_seen l ++ [x].
Proof.
  induction l as [|a l IH]; simpl; [done|].
  rewrite IH.
  destruct (decide (x ∈ l)) as [Hin|Hin].
  - by rewrite (decide_True (P := x ∈ a :: l)) by (by right).
  - rewrite filter_app.
    destruct (decide (x = a)) as [->|Hne].
    + rewrite (decide_True (P := a ∈ a :: l)) by left.
      rewrite filter_cons_False by tauto. by rewrite app_nil_r.
    + rewrite (decide_False (P := x ∈ a :: l)) by (rewrite elem_of_cons; tauto).
      by rewrite filter_cons_True.
Qed.

(** ** Outcomes *)

Lemma bind_Ret {A B : Type} (a : A) (k : A → outcome B) : Ret a ≫= k = k a.
Proof. done. Qed.

Lemma bind_assoc {A B C : Type} (m : outcome A) (k : A → outcome B)
    (k' : B → outcome C) :
  (m ≫= k) ≫= k' = m ≫= (fun a => k a ≫= k').
Proof. by destruct m. Qed.

(** ** The table built by the reading loops *)

Section Table.
Context `{World}.
Implicit Types (es : list (nat * File)) (t : Table) (f : File).

Lemma first_with_snoc join key (fs : list File) f :
  first_with join key (fs ++ [f]) =
  match first_with join key fs with
  | Some f0 => Some f0
  | None => if decide (keygen join f = key) then Some f else None
  end.
Proof.
  unfold first_with. rewrite filter_app, head_app.
  destruct (head _); [done|].
  destruct (decide (keygen join f = key)).
  - by rewrite filter_cons_True.
  - by rewrite filter_cons_False.
Qed.

Lemma last_with_snoc join key (fs : list File) f :
  last_with join key (fs ++ [f]) =
  if decide (keygen join f = key) then Some f else last_with join key fs.
Proof.
  unfold last_with. rewrite filter_app.
  destruct (decide (keygen join f = key)).
  - rewrite filter_cons_True by done. simpl. apply last_snoc.
  - rewrite filter_cons_False by done. simpl. by rewrite app_nil_r.
Qed.

Lemma first_with_None join key (fs : list File) :
  first_with join key fs = None ↔ key ∉ keygen join <$> fs.
Proof.
  unfold first_with. rewrite head_None, list_elem_of_fmap. split.
  - intros Hnil (f & -> & Hin).
    by apply (filter_nil_not_elem_of _ _ f) in Hnil.
  - intros Hno. induction fs as [|f fs IH]; [done|].
    rewrite filter_cons_False.
    + apply IH. intros (g & ? & ?). apply Hno. exists g. split; [done|by right].
    + intros Hk. apply Hno. exists f. split; [done|by left].
Qed.

Lemma last_with_None join key (fs : list File) :
  last_with join key fs = None ↔ key ∉ keygen join <$> fs.
Proof.
  rewrite <- first_with_None. unfold last_with, first_with.
  by rewrite last_None, head_None.
Qed.

Lemma keys_of_snd join es : keygen join <$> (snd <$> es) = keys_of join es.
Proof. unfold keys_of. by rewrite <- list_fmap_compose. Qed.

Lemma keys_of_app join es es' :
  keys_of join (es ++ es') = keys_of join es ++ keys_of join es'.
Proof. apply fmap_app. Qed.

Lemma of_set_snoc j es i f :
  of_set j (es ++ [(i, f)]) =
  if decide (i = j) then of_set j es ++ [f] else of_set j es.
Proof.
  unfold of_set. rewrite filter_app. case_decide.
  - rewrite filter_cons_True by done. by rewrite fmap_app.
  - rewrite filter_cons_False by done. simpl. by rewrite app_nil_r.
Qed.

Lemma of_set_subseteq j es : of_set j es ⊆ snd <$> es.
Proof.
  intros f. unfold of_set. rewrite !list_elem_of_fmap.
  intros (p & -> & Hp). apply list_elem_of_filter in Hp as [_ Hp]. eauto.
Qed.

Lemma column_snoc join key es i f j :
  column join key (es ++ [(i, f)]) j =
  if decide (i = j ∧ keygen join f = key) then idStr f
  else column join key es j.
Proof.
  unfold column. rewrite of_set_snoc.
  destruct (decide (i = j)) as [->|Hne].
  - rewrite last_with_snoc. destruct (decide (keygen join f = key)).
    + by rewrite decide_True.
    + by rewrite decide_False by tauto.
  - by rewrite decide_False by tauto.
Qed.

Lemma column_MISSING join key es j :
  key ∉ keys_of join es → column join key es j = MISSING.
Proof.
  intros Hno. unfold column.
  assert (last_with join key (of_set j es) = None) as ->; [|done].
  apply last_with_None. intros Hin. apply Hno.
  rewrite <- keys_of_snd. apply list_elem_of_fmap in Hin as (f & -> & Hf).
  apply list_elem_of_fmap. exists f. split; [done|]. by apply of_set_subseteq in Hf.
Qed.

Lemma row_of_is_Some join n key es :
  is_Some (row_of join n key es) ↔ key ∈ keys_of join es.
Proof.
  unfold row_of. rewrite <- keys_of_snd.
  destruct (first_with join key (snd <$> es)) as [f0|] eqn:Hf; simpl.
  - split; [|eauto]. intros _.
    destruct (decide (key ∈ keygen join <$> (snd <$> es))) as [|Hn]; [done|].
    apply first_with_None in Hn. congruence.
  - apply first_with_None in Hf. split; [by intros [? ?]|done].
Qed.

Lemma row_of_None join n key es :
  row_of join n key es = None ↔ key ∉ keys_of join es.
Proof. rewrite <- row_of_is_Some, eq_None_not_Some. done. Qed.

Lemma row_of_length join n key es row :
  row_of join n key es = Some row → length row = S n.
Proof.
  unfold row_of. destruct (first_with _ _ _); simpl; [|done].
  intros [= <-]. simpl. by rewrite length_fmap, length_seq.
Qed.

Lemma row_of_snoc_ne join n key es i f :
  keygen join f ≠ key →
  row_of join n key (es ++ [(i, f)]) = row_of join n key es.
Proof.
  intros Hne. unfold row_of. rewrite fmap_app. simpl.
  rewrite first_with_snoc, decide_False by done.
  destruct (first_with join key (snd <$> es)); simpl; [|done].
  do 2 f_equal. apply list_fmap_ext. intros _ j _.
  rewrite column_snoc. by rewrite decide_False by tauto.
Qed.

Lemma columns_snoc join n es i f :
  i < n →
  column join (keygen join f) (es ++ [(i, f)]) <$> seq 0 n =
  <[i := idStr f]> (column join (keygen join f) es <$> seq 0 n).
Proof.
  intros Hi. apply list_eq. intros j.
  rewrite list_lookup_fmap. destruct (decide (i = j)) as [<-|Hne].
  - rewrite list_lookup_insert_eq by (by rewrite length_fmap, length_seq).
    rewrite lookup_seq_lt by done. simpl. rewrite column_snoc.
    by rewrite decide_True.
  - rewrite list_lookup_insert_ne, list_lookup_fmap by done.
    destruct (decide (j < n)).
    + rewrite lookup_seq_lt by done. simpl.
      rewrite column_snoc. by rewrite decide_False by tauto.
    + by rewrite lookup_seq_ge by lia.
Qed.

Lemma row_of_snoc_eq join n es i f :
  i < n →
  row_of join n (keygen join f) (es ++ [(i, f)]) =
  Some (<[S i := idStr f]>
          (default (Path f :: replicate n MISSING)
                   (row_of join n (keygen join f) es))).
Proof.
  intros Hi. unfold row_of at 1. rewrite fmap_app. simpl.
  rewrite first_with_snoc, decide_True by done.
  rewrite columns_snoc by done.
  destruct (first_with join (keygen join f) (snd <$> es)) as [f0|] eqn:Hf.
  - unfold row_of. by rewrite Hf.
  - unfold row_of. rewrite Hf. simpl. do 3 f_equal.
    apply first_with_None in Hf. rewrite keys_of_snd in Hf.
    apply list_eq. intros j. rewrite list_lookup_fmap.
    destruct (decide (j < n)).
    + rewrite lookup_seq_lt, lookup_replicate_2 by done. simpl.
      by rewrite column_MISSING.
    + rewrite lookup_seq_ge by lia. symmetry.
      apply lookup_replicate_None. lia.
Qed.

Lemma represents_empty join n : represents join n [] Table_empty.
Proof. split; [done|]. intros key. simpl. by rewrite lookup_empty. Qed.

(** The body of the inner loop stays within the bounds of its row and
    records its entry. *)
Lemma record_entry_represents join n es i f t :
  represents join n es t → i < n →
  ∃ t', record_entry join n i f t = Ret t' ∧
        represents join n (es ++ [(i, f)]) t'.
Proof.
  intros [Hfiles Hrows] Hi. unfold record_entry.
  set (key := keygen join f).
  set (t1 := match results t !! key with Some _ => t | None => _ end).
  assert (results t1 !! key =
          Some (default (Path f :: replicate n MISSING)
                        (row_of join n key es))) as Hrow.
  { subst t1. rewrite <- Hrows.
    destruct (results t !! key) eqn:Hk; simpl; [done|].
    apply lookup_insert_eq. }
  assert (files t1 = first_seen (keys_of join (es ++ [(i, f)]))) as Hf1.
  { rewrite keys_of_app. simpl. rewrite first_seen_snoc. fold key.
    subst t1. destruct (results t !! key) eqn:Hk.
    - rewrite decide_True; [done|].
      apply (row_of_is_Some join n). rewrite <- Hrows. eauto.
    - rewrite decide_False; [by rewrite <- Hfiles|].
      apply (row_of_None join n). by rewrite <- Hrows. }
  assert (∀ k, k ≠ key → results t1 !! k = row_of join n k es) as Hother.
  { intros k Hk. subst t1. destruct (results t !! key); [done|].
    simpl. by rewrite lookup_insert_ne. }
  rewrite (lookup_total_correct _ _ _ Hrow).
  rewrite decide_True.
  2:{ destruct (row_of join n key es) as [row|] eqn:Hr; simpl.
      - apply row_of_length in Hr. lia.
      - rewrite length_replicate. lia. }
  eexists. split; [done|]. split; [done|]. simpl. intros k.
  destruct (decide (k = key)) as [->|Hk].
  - rewrite lookup_insert_eq. subst key. by rewrite row_of_snoc_eq.
  - rewrite lookup_insert_ne by done. rewrite Hother by done.
    subst key. by rewrite row_of_snoc_ne.
Qed.

Lemma after_app join n es es' t :
  after join n (es ++ es') t = after join n es t ≫= after join n es'.
Proof.
  revert t. induction es as [|[i f] es IH]; intros t; simpl; [done|].
  rewrite bind_assoc. destruct (record_entry join n i f t); simpl; [|done].
  apply IH.
Qed.

(** Entries of readers within range are all recorded, without panic. *)
Lemma after_represents join n es0 es t :
  represents join n es0 t → Forall (fun p => p.1 < n) es →
  ∃ t', after join n es t = Ret t' ∧ represents join n (es0 ++ es) t'.
Proof.
  intros Hrep Hall. revert es0 t Hrep.
  induction Hall as [|[i f] es Hi _ IH]; intros es0 t Hrep; simpl.
  - exists t. by rewrite app_nil_r.
  - destruct (record_entry_represents join n es0 i f t Hrep Hi)
      as (t1 & -> & Hrep1).
    destruct (IH _ _ Hrep1) as (t' & Ht' & Hrep').
    exists t'. split; [done|]. by rewrite <- app_assoc in Hrep'.
Qed.

Lemma tagged_bound i readers :
  Forall (fun p => i ≤ p.1 < i + length readers) (tagged i readers).
Proof.
  revert i. induction readers as [|rdr rest IH]; intros i; simpl; [done|].
  apply Forall_app. split.
  - apply Forall_fmap, Forall_forall. intros f _. simpl. lia.
  - eapply Forall_impl; [apply IH|]. simpl. intros p ?. lia.
Qed.

(** The reading loops never panic, and their table holds the rows of all
    the entries read. *)
Lemma table_of_represents join readers :
  ∃ t, table_of join readers = Ret t ∧
       represents join (length readers) (tagged 0 readers) t.
Proof.
  apply (after_represents join _ []); [apply represents_empty|].
  eapply Forall_impl; [apply tagged_bound|]. simpl. intros p ?. lia.
Qed.

End Table.

(** ** The loops of [Compare] *)

Section Loops.
Context `{World}.
Implicit Types (t : Table) (w : Writer).

(** The inner loop seen through [Next]: one call, then the body and the
    loop again unless the call returned an error. *)
Lemma drain_Next join n i rdr t :
  drain join n i rdr t =
  match Next rdr with
  | (f, None, rest) =>
      t ← record_entry join n i f t;
      '(t, evs) ← drain join n i rest t;
      Ret (t, EvNext i :: evs)
  | (_, Some _, _) => Ret (t, [EvNext i])
  end.
Proof. by destruct rdr. Qed.

Lemma drain_after join n i rdr t :
  drain join n i rdr t =
  t' ← after join n (pair i <$> entries rdr) t;
  Ret (t', replicate (S (length (entries rdr))) (EvNext i)).
Proof.
  revert t. induction rdr as [f rest IH|e]; intros t; simpl; [|done].
  destruct (record_entry join n i f t) as [t1|]; simpl; [|done].
  rewrite IH. by destruct (after join n _ t1).
Qed.

Lemma consume_after join n i readers t :
  consume join n i readers t =
  t' ← after join n (tagged i readers) t; Ret (t', nexts i readers).
Proof.
  revert i t. induction readers as [|rdr rest IH]; intros i t; simpl; [done|].
  rewrite drain_after, after_app.
  destruct (after join n (pair i <$> entries rdr) t) as [t1|]; simpl; [|done].
  rewrite IH. by destruct (after join n (tagged (S i) rest) t1).
Qed.

Lemma emit_spec (results : gmap string (list string)) fs w complete :
  let ms := filter (fun row => matches row = false)
                   ((fun key => results !!! key) <$> fs) in
  emit results fs w complete =
  (write_all w ms, EvWrite <$> attempted w ms,
   complete && bool_decide (ms = []), first_write_error w ms).
Proof.
  revert w complete. induction fs as [|f fs IH]; intros w complete; simpl.
  { by rewrite andb_true_r. }
  destruct (matches (results !!! f)) eqn:Hm.
  - rewrite filter_cons_False by (by rewrite Hm). apply IH.
  - rewrite filter_cons_True by done. simpl.
    destruct (csv_Write w (results !!! f)) as [w' [err|]].
    + by rewrite andb_false_r.
    + rewrite IH. simpl. by rewrite andb_false_r.
Qed.

Lemma first_write_error_None w ms :
  first_write_error w ms = None → attempted w ms = ms.
Proof.
  revert w. induction ms as [|r ms IH]; intros w; simpl; [done|].
  destruct (csv_Write w r) as [w' [err|]]; [done|].
  intros Hn. by rewrite IH.
Qed.

Lemma attempted_prefix w ms : attempted w ms `prefix_of` ms.
Proof.
  revert w. induction ms as [|r ms IH]; intros w; simpl; [done|].
  destruct (csv_Write w r) as [w' [err|]].
  - by exists ms.
  - by apply prefix_cons.
Qed.

Lemma first_write_error_Some w ms err :
  first_write_error w ms = Some err →
  attempted w ms ≠ [] ∧
  ∃ w' r, last (attempted w ms) = Some r ∧ (csv_Write w' r).2 = Some err.
Proof.
  revert w. induction ms as [|r ms IH]; intros w; simpl; [done|].
  destruct (csv_Write w r) as [w' [e|]] eqn:Hw.
  - intros [= ->]. split; [done|]. exists w, r. by rewrite Hw.
  - intros Hs. split; [done|].
    destruct (IH _ Hs) as (Hne & w'' & r' & Hl & Hr).
    exists w'', r'. split; [|done].
    destruct (attempted w' ms); [done|]. by rewrite last_cons_cons.
Qed.

(** Lines 87-119 in closed form. *)
Lemma reconcile_spec w join readers t :
  table_of join readers = Ret t →
  reconcile w join readers =
  Ret (first_write_error w (mismatches t), closed w (mismatches t),
       nexts 0 readers ++ (EvWrite <$> attempted w (mismatches t))
         ++ closing (first_write_error w (mismatches t)) (mismatches t)).
Proof.
  unfold table_of, reconcile. intros Ht. rewrite consume_after, Ht. simpl.
  rewrite emit_spec. fold (rows t). fold (mismatches t).
  unfold closed, closing.
  destruct (first_write_error w (mismatches t)); simpl.
  - by rewrite app_nil_r.
  - case_bool_decide; simpl; by destruct (decide (mismatches t = [])).
Qed.

Lemma open_all_inr paths evs readers :
  open_all paths = (evs, inr readers) →
  evs = EvOpen <$> paths ∧ Forall2 (fun p rdr => Open p = inr rdr) paths readers.
Proof.
  revert evs readers. induction paths as [|p paths IH]; intros evs readers; simpl.
  { intros [= <- <-]. by split. }
  destruct (Open p) as [e|rdr] eqn:Hp; [done|].
  destruct (open_all paths) as [evs' [e|rdrs]]; [done|].
  intros [= <- <-]. destruct (IH _ _ eq_refl) as [-> Hall].
  split; [done|]. by constructor.
Qed.

Lemma open_all_inl paths evs err :
  open_all paths = (evs, inl err) →
  ∃ k p, paths !! k = Some p ∧ Open p = inl err ∧
         evs = EvOpen <$> take (S k) paths.
Proof.
  revert evs. induction paths as [|p paths IH]; intros evs; simpl; [done|].
  destruct (Open p) as [e|rdr] eqn:Hp.
  - intros [= <- <-]. exists 0, p. by rewrite take_0.
  - destruct (open_all paths) as [evs' [e|rdrs]]; [|done].
    intros [= <- <-]. destruct (IH _ eq_refl) as (k & q & Hq & Ho & ->).
    by exists (S k), q.
Qed.

Lemma open_all_fails paths p e :
  p ∈ paths → Open p = inl e → ∃ evs err, open_all paths = (evs, inl err).
Proof.
  intros Hin Hp. induction paths as [|q paths IH]; [by apply elem_of_nil in Hin|].
  simpl. destruct (Open q) as [e'|rdr] eqn:Hq; [eauto|].
  apply elem_of_cons in Hin as [->|Hin]; [congruence|].
  destruct (IH Hin) as (evs & err & ->). eauto.
Qed.

(** [Compare] never panics. *)
Lemma Compare_returns w join paths : ∃ r, Compare w join paths = Ret r.
Proof.
  unfold Compare. case_decide; [eauto|].
  destruct (open_all paths) as [evs0 [err|readers]]; [eauto|].
  destruct (table_of_represents join readers) as (t & Ht & _).
  rewrite (reconcile_spec _ _ _ _ Ht). simpl. eauto.
Qed.

(** A run of [Compare] whose files all open, in closed form. *)
Lemma Compare_opened w join paths evs0 readers t :
  2 ≤ length paths → open_all paths = (evs0, inr readers) →
  table_of join readers = Ret t →
  Compare w join paths =
  Ret (mkRun (first_write_error w (mismatches t)) (closed w (mismatches t))
         ((EvOpen <$> paths) ++ nexts 0 readers
            ++ (EvWrite <$> attempted w (mismatches t))
            ++ closing (first_write_error w (mismatches t)) (mismatches t))).
Proof.
  intros Hlen Ho Ht. unfold Compare. rewrite decide_False by lia.
  rewrite Ho. rewrite (reconcile_spec _ _ _ _ Ht). simpl.
  by apply open_all_inr in Ho as [-> _].
Qed.

End Loops.

(** ** The log of a run *)

Section Log.
Context `{World}.

Lemma written_app evs evs' : written (evs ++ evs') = written evs ++ written evs'.
Proof. apply omap_app. Qed.

Lemma written_opens paths : written (EvOpen <$> paths) = [].
Proof. by induction paths. Qed.

Lemma written_nexts i readers : written (nexts i readers) = [].
Proof.
  revert i. induction readers as [|rdr rest IH]; intros i; [done|].
  cbn [nexts]. rewrite written_app, IH, app_nil_r.
  by induction (S (length (entries rdr))).
Qed.

Lemma written_writes records : written (EvWrite <$> records) = records.
Proof. induction records; [done|]. simpl. by f_equal. Qed.

Lemma written_closing err ms : written (closing err ms) = [].
Proof. destruct err; [done|]. simpl. by case_decide. Qed.

Lemma nexts_are_next i readers : Forall is_next (nexts i readers).
Proof.
  revert i. induction readers as [|rdr rest IH]; intros i; [done|].
  cbn [nexts]. apply Forall_app. split; [|apply IH].
  by apply Forall_replicate.
Qed.

Lemma marker_in_closing err ms :
  EvFprint COMPLETE_MATCH ∈ closing err ms ↔ err = None ∧ ms = [].
Proof.
  destruct err; simpl.
  - split; [by intros ?%elem_of_nil | by intros [? _]].
  - rewrite elem_of_cons. case_decide.
    + split; [done|]. intros _. right. by left.
    + split; [|tauto]. intros [?|?%elem_of_nil]; done.
Qed.

Lemma tagged_entries i readers readers' :
  entries <$> readers' = entries <$> readers →
  tagged i readers' = tagged i readers ∧ nexts i readers' = nexts i readers.
Proof.
  revert i readers'. induction readers as [|rdr rest IH];
    intros i [|rdr' rest']; simpl; try done.
  intros [= He Hrest]. destruct (IH (S i) _ Hrest) as [-> ->].
  by rewrite He.
Qed.

(** A run whose files all open: what it returns, writes and prints. *)
Lemma Compare_run w join paths evs0 readers :
  2 ≤ length paths → open_all paths = (evs0, inr readers) →
  ∃ r t,
    Compare w join paths = Ret r ∧ table_of join readers = Ret t ∧
    represents join (length readers) (tagged 0 readers) t ∧
    length readers = length paths ∧
    ret r = first_write_error w (mismatches t) ∧
    written (log r) = attempted w (mismatches t) ∧
    (EvFprint COMPLETE_MATCH ∈ log r ↔
     first_write_error w (mismatches t) = None ∧ mismatches t = []) ∧
    log r = (EvOpen <$> paths) ++ nexts 0 readers
              ++ (EvWrite <$> attempted w (mismatches t))
              ++ closing (ret r) (mismatches t).
Proof.
  intros Hlen Ho.
  destruct (table_of_represents join readers) as (t & Ht & Hrep).
  eexists _, t. split; [by eapply Compare_opened|].
  split; [done|]. split; [done|]. simpl.
  split; [apply open_all_inr in Ho as [_ Hf]; by apply Forall2_length in Hf|].
  split; [done|]. split.
  { by rewrite !written_app, written_opens, written_nexts, written_writes,
      written_closing, app_nil_r. }
  split; [|done].
  rewrite !elem_of_app, marker_in_closing. split; [|tauto].
  intros [Hin|[Hin|[Hin|Hin]]];
    [| |by apply list_elem_of_fmap in Hin as (? & ? & ?)|done].
  - by apply list_elem_of_fmap in Hin as (? & ? & ?).
  - pose proof (nexts_are_next 0 readers) as Hn.
    rewrite Forall_forall in Hn. by apply Hn in Hin.
Qed.

End Log.

(** ** The text of a column *)

(** C1, as the specification words it, fails: [idStr] sorts and joins but
    removes nothing.  An entry identified twice as fmt/1 gets the column
    text "fmt/1;fmt/1", where the deduplicated list would give "fmt/1". *)
Lemma idStr_keeps_duplicates :
  idStr (sample.entry "x" ["fmt/1"; "fmt/1"]) = "fmt/1;fmt/1" ∧
  idStr_spec (sample.entry "x" ["fmt/1"; "fmt/1"]) = "fmt/1" ∧
  idStr (sample.entry "x" ["fmt/1"; "fmt/1"])
    ≠ idStr_spec (sample.entry "x" ["fmt/1"; "fmt/1"]).
Proof. by vm_compute. Qed.

(** C1, amended: when the loops of [Compare] record an entry of the reader
    of index [i], column [i + 1] of the row of its key holds the text
    [idStr] gives for it, which is the identification strings of the entry
    sorted in increasing bytewise order and joined by semicolons, every
    string as often as the entry has it; the text does not depend on the
    order of the identifications in the entry. *)
Theorem idStr_column `{World} (join : Z) (readers : list Reader)
    (es rest : list (nat * File)) (i : nat) (fi : File) :
  tagged 0 readers = es ++ (i, fi) :: rest →
  ∃ t row,
    after join (length readers) (es ++ [(i, fi)]) Table_empty = Ret t ∧
    results t !! keygen join fi = Some row ∧
    row !! S i = Some (idStr fi) ∧
    idStr fi = strings.Join (sort.Strings (core.String <$> IDs fi)) ";" ∧
    Sorted String.le (sort.Strings (core.String <$> IDs fi)) ∧
    sort.Strings (core.String <$> IDs fi) ≡ₚ core.String <$> IDs fi ∧
    ∀ fi', IDs fi' ≡ₚ IDs fi → idStr fi' = idStr fi.
Proof.
  intros Htag.
  pose proof (tagged_bound 0 readers) as Hb. rewrite Htag in Hb.
  apply Forall_app in Hb as [Hes Hb]. apply Forall_cons in Hb as [Hi _].
  simpl in Hi.
  destruct (after_represents join (length readers) [] (es ++ [(i, fi)])
              Table_empty) as (t & Ht & [_ Hrows]).
  { apply represents_empty. }
  { apply Forall_app. split.
    - eapply Forall_impl; [exact Hes|]. simpl. intros p ?. lia.
    - repeat constructor. simpl. lia. }
  simpl in Hrows. specialize (Hrows (keygen join fi)).
  rewrite row_of_snoc_eq in Hrows by lia.
  pose proof (row_of_snoc_eq join (length readers) es i fi) as Hlen.
  apply row_of_length in Hlen; [|lia].
  eexists t, _. split; [done|]. split; [done|].
  split.
  { apply list_lookup_insert_eq. rewrite length_insert in Hlen. lia. }
  split; [done|]. split; [apply Strings_sorted|]. split; [apply Strings_perm|].
  intros fi'. apply idStr_of_perm.
Qed.

Lemma idStr_column_witness :
  tagged 0 [sample.set_a; sample.set_b] =
    [(0, sample.entry "x" ["fmt/1"])]
      ++ (0, sample.entry "/d/y" ["b"; "a"; "a"])
      :: [(1, sample.entry "x" ["fmt/2"])] ∧
  ∃ t row,
    after (H := sample.disk) Join.Path 2
      ([(0, sample.entry "x" ["fmt/1"])]
         ++ [(0, sample.entry "/d/y" ["b"; "a"; "a"])]) Table_empty = Ret t ∧
    results t !! keygen (H := sample.disk) Join.Path
                   (sample.entry "/d/y" ["b"; "a"; "a"]) = Some row ∧
    row !! 1 = Some (idStr (sample.entry "/d/y" ["b"; "a"; "a"])) ∧
    idStr (sample.entry "/d/y" ["b"; "a"; "a"]) =
      strings.Join (sort.Strings
        (core.String <$> IDs (sample.entry "/d/y" ["b"; "a"; "a"]))) ";" ∧
    Sorted String.le (sort.Strings
      (core.String <$> IDs (sample.entry "/d/y" ["b"; "a"; "a"]))) ∧
    sort.Strings (core.String <$> IDs (sample.entry "/d/y" ["b"; "a"; "a"]))
      ≡ₚ core.String <$> IDs (sample.entry "/d/y" ["b"; "a"; "a"]) ∧
    ∀ fi', IDs fi' ≡ₚ IDs (sample.entry "/d/y" ["b"; "a"; "a"]) →
           idStr fi' = idStr (sample.entry "/d/y" ["b"; "a"; "a"]).
Proof.
  split; [reflexivity|].
  apply (idStr_column (H := sample.disk) Join.Path
           [sample.set_a; sample.set_b]
           [(0, sample.entry "x" ["fmt/1"])]
           [(1, sample.entry "x" ["fmt/2"])]
           0 (sample.entry "/d/y" ["b"; "a"; "a"])).
  reflexivity.
Defined.

(** ** Errors of a run *)

(** C2 fails on the code.  [Compare] returns the error of [Open] (lines
    82-84) and the error of [wrt.Write] (lines 110-112), but the error of
    [Next] is only tested against nil by the loop of line 90 and then
    dropped.  A results file whose entry cannot be parsed ends its reader
    with an error that is not [io.EOF]; [Compare] goes on, returns nil and
    here prints "COMPLETE MATCH" for a file it has not read to its end. *)
Theorem Compare_swallows_parse_error :
  (∃ f rest, Next sample.set_damaged = (f, None, rest) ∧
             (Next rest).1.2 = Some sample.parse_error) ∧
  sample.parse_error ≠ io.EOF ∧
  ∃ r, Compare (H := sample.disk) (sample.fresh 10) Join.Path
         ["damaged.csv"; "c.csv"] = Ret r ∧
       ret r = None ∧
       EvFprint COMPLETE_MATCH ∈ log r.
Proof.
  split; [by eexists _, _|]. split; [done|]. eexists. split; [by vm_compute|].
  split; [done|]. vm_compute. repeat constructor.
Qed.

(** The errors [Compare] does return once its files are open are those
    that [wrt.Write] itself returns: the error of the first record it
    refuses, the refused write being the last call of the run.  Whatever
    error ends a reader has no part in the run: readers with the same
    entries give the same run. *)
Lemma Compare_returns_write_error `{World} (w : Writer) (join : Z)
    (paths : list string) (evs0 : list event) (readers : list Reader) :
  2 ≤ length paths → open_all paths = (evs0, inr readers) →
  ∃ r t,
    Compare w join paths = Ret r ∧ table_of join readers = Ret t ∧
    ret r = first_write_error w (mismatches t) ∧
    (∀ err, ret r = Some err →
       ∃ w' record, last (log r) = Some (EvWrite record) ∧
                    (csv_Write w' record).2 = Some err) ∧
    (∀ readers', entries <$> readers' = entries <$> readers →
       reconcile w join readers' = reconcile w join readers).
Proof.
  intros Hlen Ho.
  destruct (Compare_run w join paths evs0 readers Hlen Ho)
    as (r & t & Hr & Ht & _ & _ & Hret & _ & _ & Hlog).
  exists r, t. split; [done|]. split; [done|]. split; [done|]. split.
  - intros err He. rewrite Hret in He.
    destruct (first_write_error_Some _ _ _ He) as (Hne & w' & record & Hl & Hw).
    exists w', record. split; [|done].
    rewrite Hlog, Hret, He. simpl. rewrite app_nil_r, !last_app.
    rewrite fmap_last, Hl. done.
  - intros readers' He.
    assert (length readers' = length readers) as Hlen'.
    { by rewrite <- (length_fmap entries readers'), He, length_fmap. }
    destruct (tagged_entries 0 _ _ He) as [Htag Hnext].
    assert (table_of join readers' = Ret t) as Ht'.
    { unfold table_of. by rewrite Hlen', Htag. }
    by rewrite (reconcile_spec _ _ _ _ Ht), (reconcile_spec _ _ _ _ Ht'), Hnext.
Qed.

(** ** The marker and the records written *)

(** C3, as stated, fails when there is no row at all: two empty result
    sets give an empty table, and the marker is printed all the same. *)
Lemma marker_without_rows :
  ∃ r t,
    Compare (H := sample.disk) (sample.fresh 10) Join.Path
      ["empty.csv"; "empty.csv"] = Ret r ∧
    table_of (H := sample.disk) Join.Path
      [sample.set_empty; sample.set_empty] = Ret t ∧
    rows t = [] ∧
    EvFprint COMPLETE_MATCH ∈ log r.
Proof.
  eexists _, _. split; [by vm_compute|]. split; [by vm_compute|].
  split; [done|]. vm_compute. repeat constructor.
Qed.

(** C3, amended: in a run whose files all open, [Compare] prints
    "COMPLETE MATCH" exactly when no row of its table mismatches, which
    includes the table without rows; when it prints the marker it has
    written no record and returns nil. *)
Theorem marker_iff_no_mismatch `{World} (w : Writer) (join : Z)
    (paths : list string) (evs0 : list event) (readers : list Reader) :
  2 ≤ length paths → open_all paths = (evs0, inr readers) →
  ∃ r t,
    Compare w join paths = Ret r ∧ table_of join readers = Ret t ∧
    (EvFprint COMPLETE_MATCH ∈ log r ↔ mismatches t = []) ∧
    (EvFprint COMPLETE_MATCH ∈ log r → written (log r) = [] ∧ ret r = None).
Proof.
  intros Hlen Ho.
  destruct (Compare_run w join paths evs0 readers Hlen Ho)
    as (r & t & Hr & Ht & _ & _ & Hret & Hw & Hm & _).
  exists r, t. split; [done|]. split; [done|]. rewrite Hm, Hw, Hret. split.
  - split; [tauto|]. intros ->. done.
  - intros [_ ->]. done.
Qed.

Lemma marker_iff_no_mismatch_witness :
  2 ≤ length ["a.csv"; "c.csv"] ∧
  open_all (H := sample.disk) ["a.csv"; "c.csv"] =
    ([EvOpen "a.csv"; EvOpen "c.csv"], inr [sample.set_a; sample.set_c]) ∧
  ∃ r t,
    Compare (H := sample.disk) (sample.fresh 10) Join.Filename
      ["a.csv"; "c.csv"] = Ret r ∧
    table_of (H := sample.disk) Join.Filename [sample.set_a; sample.set_c]
      = Ret t ∧
    (EvFprint COMPLETE_MATCH ∈ log r ↔ mismatches t = []) ∧
    (EvFprint COMPLETE_MATCH ∈ log r → written (log r) = [] ∧ ret r = None).
Proof.
  split; [simpl; lia|]. split; [reflexivity|].
  apply (marker_iff_no_mismatch (H := sample.disk) (sample.fresh 10)
           Join.Filename ["a.csv"; "c.csv"] [EvOpen "a.csv"; EvOpen "c.csv"]
           [sample.set_a; sample.set_c]).
  - simpl; lia.
  - reflexivity.
Defined.

(** ** Rows and keys of the table *)

Section Rows.
Context `{World}.

Lemma filter_fmap_rows {A B : Type} (f : A → B) (P : B → Prop)
    `{!∀ b, Decision (P b)} (l : list A) :
  filter P (f <$> l) = f <$> filter (fun a => P (f a)) l.
Proof.
  induction l as [|a l IH]; [done|]. rewrite fmap_cons.
  destruct (decide (P (f a))).
  - rewrite !filter_cons_True by done. by rewrite fmap_cons, IH.
  - by rewrite !filter_cons_False by done.
Qed.

Lemma represents_row join n es t key :
  represents join n es t → key ∈ files t →
  ∃ row, results t !! key = Some row ∧ results t !!! key = row ∧
         length row = S n.
Proof.
  intros [Hf Hr] Hin. rewrite Hf, elem_of_first_seen in Hin.
  apply (row_of_is_Some join n) in Hin as [row Hrow].
  exists row. rewrite Hr. split; [done|]. split.
  - apply lookup_total_correct. by rewrite Hr.
  - by eapply row_of_length.
Qed.

Lemma represents_rows_length join n es t row :
  represents join n es t → row ∈ rows t → length row = S n.
Proof.
  intros Hrep Hin. unfold rows in Hin.
  apply list_elem_of_fmap in Hin as (key & -> & Hk).
  by destruct (represents_row join n es t key Hrep Hk) as (? & _ & -> & ?).
Qed.

Lemma represents_dom join n es t :
  represents join n es t →
  dom (results t) = list_to_set (keys_of join es).
Proof.
  intros [_ Hr]. apply set_eq. intros key.
  by rewrite elem_of_dom, Hr, row_of_is_Some, elem_of_list_to_set.
Qed.

Lemma length_first_seen (l : list string) :
  length (first_seen l) = size (list_to_set l : gset string).
Proof.
  rewrite <- (size_list_to_set (C := gset string) (first_seen l))
    by apply NoDup_first_seen.
  f_equal. apply set_eq. intros x.
  by rewrite !elem_of_list_to_set, elem_of_first_seen.
Qed.

Lemma mismatches_keys (t : Table) :
  mismatches t =
  (fun key => results t !!! key)
    <$> filter (fun key => matches (results t !!! key) = false) (files t).
Proof. unfold mismatches, rows. apply filter_fmap_rows. Qed.

Lemma written_in_order w (t : Table) :
  ∃ keys, keys `sublist_of` files t ∧
          attempted w (mismatches t) = (fun key => results t !!! key) <$> keys.
Proof.
  destruct (attempted_prefix w (mismatches t)) as [k Hk].
  exists (take (length (attempted w (mismatches t)))
            (filter (fun key => matches (results t !!! key) = false) (files t))).
  split.
  - etrans; [apply sublist_take|apply sublist_filter].
  - rewrite fmap_take, <- mismatches_keys.
    revert Hk. generalize (attempted w (mismatches t)). intros a Hk.
    by rewrite Hk, take_app_length.
Qed.

End Rows.

(** C4, as stated, fails in its last part: the sentinel is compared like
    any other text.  The file "/d/y" is in the first result set only; the
    columns of its row other than "MISSING" are one column, hence the same
    text, and the row is written as a mismatch. *)
Lemma missing_column_mismatches :
  ∃ r, Compare (H := sample.disk) (sample.fresh 10) Join.Path
         ["a.csv"; "b.csv"] = Ret r ∧
       ["/d/y"; "a;a;b"; "MISSING"] ∈ written (log r) ∧
       identical (non_missing ["/d/y"; "a;a;b"; "MISSING"]) ∧
       matches ["/d/y"; "a;a;b"; "MISSING"] = false.
Proof.
  eexists. split; [by vm_compute|]. split; [vm_compute; repeat constructor|].
  split; [|done].
  assert (non_missing ["/d/y"; "a;a;b"; "MISSING"] = ["a;a;b"]) as ->
    by by vm_compute.
  intros a b Ha%list_elem_of_singleton Hb%list_elem_of_singleton. congruence.
Qed.

(** C4, amended: in a run whose files all open, the records written are
    rows that do not match, in the order of the table, and when no write
    fails they are exactly the rows that do not match: a row stays out of
    the output iff it matches.  A row matches iff it has at least 3 columns
    and every column after the first two holds the text of column 1, the
    sentinel "MISSING" being a text like any other; every row of the table
    has 1 + N columns, so that the condition on the length always holds. *)
Theorem written_iff_mismatch `{World} (w : Writer) (join : Z)
    (paths : list string) (evs0 : list event) (readers : list Reader) :
  2 ≤ length paths → open_all paths = (evs0, inr readers) →
  ∃ r t,
    Compare w join paths = Ret r ∧ table_of join readers = Ret t ∧
    written (log r) `prefix_of` filter (fun row => matches row = false) (rows t) ∧
    (ret r = None →
     written (log r) = filter (fun row => matches row = false) (rows t)) ∧
    (∀ row, row ∈ rows t → length row = 1 + length paths ∧ 3 ≤ length row) ∧
    (∀ row, matches row = true ↔
            3 ≤ length row ∧
            ∀ j c, 2 ≤ j → row !! j = Some c → row !! 1 = Some c).
Proof.
  intros Hlen Ho.
  destruct (Compare_run w join paths evs0 readers Hlen Ho)
    as (r & t & Hr & Ht & Hrep & Hn & Hret & Hw & _ & _).
  exists r, t. split; [done|]. split; [done|]. rewrite Hw, Hret.
  split; [apply attempted_prefix|]. split; [apply first_write_error_None|].
  split; [|apply matches_spec].
  intros row Hrow. eapply represents_rows_length in Hrow; [|done]. lia.
Qed.

Lemma written_iff_mismatch_witness :
  2 ≤ length ["a.csv"; "b.csv"] ∧
  open_all (H := sample.disk) ["a.csv"; "b.csv"] =
    ([EvOpen "a.csv"; EvOpen "b.csv"], inr [sample.set_a; sample.set_b]) ∧
  ∃ r t,
    Compare (H := sample.disk) (sample.fresh 10) Join.Path ["a.csv"; "b.csv"]
      = Ret r ∧
    table_of (H := sample.disk) Join.Path [sample.set_a; sample.set_b] = Ret t ∧
    written (log r) `prefix_of` filter (fun row => matches row = false) (rows t) ∧
    (ret r = None →
     written (log r) = filter (fun row => matches row = false) (rows t)) ∧
    (∀ row, row ∈ rows t →
            length row = 1 + length ["a.csv"; "b.csv"] ∧ 3 ≤ length row) ∧
    (∀ row, matches row = true ↔
            3 ≤ length row ∧
            ∀ j c, 2 ≤ j → row !! j = Some c → row !! 1 = Some c).
Proof.
  split; [simpl; lia|]. split; [reflexivity|].
  apply (written_iff_mismatch (H := sample.disk) (sample.fresh 10)
           Join.Path ["a.csv"; "b.csv"] [EvOpen "a.csv"; EvOpen "b.csv"]
           [sample.set_a; sample.set_b]).
  - simpl; lia.
  - reflexivity.
Defined.

(** C5, as stated, fails: rows that match are not output.  Of the two keys
    of these result sets one has a row that matches, and one record is
    written. *)
Lemma matching_row_not_output :
  ∃ r, Compare (H := sample.disk) (sample.fresh 10) Join.Path
         ["a.csv"; "c.csv"] = Ret r ∧
       length (written (log r)) = 1 ∧
       size (list_to_set (keys_of (H := sample.disk) Join.Path
               (tagged 0 [sample.set_a; sample.set_c])) : gset string) = 2.
Proof. eexists. split; [by vm_compute|]. split; by vm_compute. Qed.

(** C5, amended: for every join strategy and all result sets that open,
    the table [Compare] builds has one row for every distinct key observed
    in the inputs, no key twice and none dropped, so that the number of its
    rows is the number of distinct keys.  The records output are the rows
    among these that do not match (all of them when no write fails), hence
    at most as many as there are distinct keys. *)
Theorem one_row_per_key `{World} (w : Writer) (join : Z)
    (paths : list string) (evs0 : list event) (readers : list Reader) :
  2 ≤ length paths → open_all paths = (evs0, inr readers) →
  ∃ r t,
    Compare w join paths = Ret r ∧ table_of join readers = Ret t ∧
    NoDup (files t) ∧
    (∀ key, key ∈ files t ↔ key ∈ keys_of join (tagged 0 readers)) ∧
    dom (results t) = list_to_set (keys_of join (tagged 0 readers)) ∧
    length (rows t) =
      size (list_to_set (keys_of join (tagged 0 readers)) : gset string) ∧
    written (log r) `prefix_of` filter (fun row => matches row = false) (rows t) ∧
    (ret r = None →
     written (log r) = filter (fun row => matches row = false) (rows t)) ∧
    length (written (log r)) ≤
      size (list_to_set (keys_of join (tagged 0 readers)) : gset string).
Proof.
  intros Hlen Ho.
  destruct (Compare_run w join paths evs0 readers Hlen Ho)
    as (r & t & Hr & Ht & Hrep & Hn & Hret & Hw & _ & _).
  pose proof Hrep as [Hf _].
  assert (length (rows t) =
          size (list_to_set (keys_of join (tagged 0 readers)) : gset string))
    as Hsize.
  { unfold rows. by rewrite length_fmap, Hf, length_first_seen. }
  exists r, t. split; [done|]. split; [done|].
  split; [rewrite Hf; apply NoDup_first_seen|].
  split; [intros key; by rewrite Hf, elem_of_first_seen|].
  split; [by eapply represents_dom|]. split; [done|].
  rewrite Hw, Hret.
  split; [apply attempted_prefix|]. split; [apply first_write_error_None|].
  rewrite <- Hsize. etrans; [apply prefix_length, attempted_prefix|].
  apply length_filter.
Qed.

Lemma one_row_per_key_witness :
  2 ≤ length ["a.csv"; "c.csv"] ∧
  open_all (H := sample.disk) ["a.csv"; "c.csv"] =
    ([EvOpen "a.csv"; EvOpen "c.csv"], inr [sample.set_a; sample.set_c]) ∧
  ∃ r t,
    Compare (H := sample.disk) (sample.fresh 10) Join.Hash ["a.csv"; "c.csv"]
      = Ret r ∧
    table_of (H := sample.disk) Join.Hash [sample.set_a; sample.set_c] = Ret t ∧
    NoDup (files t) ∧
    (∀ key, key ∈ files t ↔
            key ∈ keys_of (H := sample.disk) Join.Hash
                    (tagged 0 [sample.set_a; sample.set_c])) ∧
    dom (results t) =
      list_to_set (keys_of (H := sample.disk) Join.Hash
                     (tagged 0 [sample.set_a; sample.set_c])) ∧
    length (rows t) =
      size (list_to_set (keys_of (H := sample.disk) Join.Hash
              (tagged 0 [sample.set_a; sample.set_c])) : gset string) ∧
    written (log r) `prefix_of` filter (fun row => matches row = false) (rows t) ∧
    (ret r = None →
     written (log r) = filter (fun row => matches row = false) (rows t)) ∧
    length (written (log r)) ≤
      size (list_to_set (keys_of (H := sample.disk) Join.Hash
              (tagged 0 [sample.set_a; sample.set_c])) : gset string).
Proof.
  split; [simpl; lia|]. split; [reflexivity|].
  apply (one_row_per_key (H := sample.disk) (sample.fresh 10)
           Join.Hash ["a.csv"; "c.csv"] [EvOpen "a.csv"; EvOpen "c.csv"]
           [sample.set_a; sample.set_c]).
  - simpl; lia.
  - reflexivity.
Defined.

(** ** The table throughout a run *)

Section Invariant.
Context `{World}.

Lemma row_of_Some join n key es row :
  row_of join n key es = Some row →
  ∃ f0, first_with join key (snd <$> es) = Some f0 ∧
        row = Path f0 :: (column join key es <$> seq 0 n).
Proof.
  unfold row_of. destruct (first_with _ _ _) as [f0|]; simpl; [|done].
  intros [= <-]. eauto.
Qed.

Lemma row_of_column join n key es row j :
  row_of join n key es = Some row → j < n →
  row !! S j = Some (column join key es j).
Proof.
  intros (f0 & _ & ->)%row_of_Some Hj. simpl.
  by rewrite list_lookup_fmap, lookup_seq_lt.
Qed.

Lemma first_with_app join key (fs gs : list File) :
  first_with join key (fs ++ gs) =
  match first_with join key fs with
  | Some f0 => Some f0
  | None => first_with join key gs
  end.
Proof.
  unfold first_with. rewrite filter_app, head_app. by destruct (head _).
Qed.

Lemma last_with_Some join key (fs : list File) f :
  last_with join key fs = Some f → f ∈ fs ∧ keygen join f = key.
Proof.
  intros Hl%last_Some_elem_of. by apply list_elem_of_filter in Hl as [? ?].
Qed.

Lemma snd_pair (i : nat) (fs : list File) : snd <$> (pair i <$> fs) = fs.
Proof. rewrite <- list_fmap_compose. apply list_fmap_id. Qed.

Lemma of_set_app j (es es' : list (nat * File)) :
  of_set j (es ++ es') = of_set j es ++ of_set j es'.
Proof. unfold of_set. by rewrite filter_app, fmap_app. Qed.

Lemma of_set_pair (j i : nat) (fs : list File) :
  of_set j (pair i <$> fs) = if decide (i = j) then fs else [].
Proof.
  unfold of_set. destruct (decide (i = j)) as [Heq|Hne].
  - induction fs as [|f fs IH]; [done|].
    rewrite fmap_cons, filter_cons_True, fmap_cons by done. by rewrite IH.
  - induction fs as [|f fs IH]; [done|].
    by rewrite fmap_cons, filter_cons_False by done.
Qed.

Lemma of_set_below j i readers : j < i → of_set j (tagged i readers) = [].
Proof.
  intros Hj. unfold of_set.
  pose proof (tagged_bound i readers) as Hb.
  induction Hb as [|p es Hp _ IH]; [done|].
  rewrite filter_cons_False by lia. done.
Qed.

(** The entries with index [i + k] are those of the reader at place [k]. *)
Lemma of_set_tagged i readers k rdr :
  readers !! k = Some rdr → of_set (i + k) (tagged i readers) = entries rdr.
Proof.
  revert i k. induction readers as [|r0 rest IH]; intros i k Hk; [done|].
  simpl. rewrite of_set_app, of_set_pair. destruct k as [|k]; simpl in Hk.
  - injection Hk as ->. rewrite decide_True by lia.
    rewrite of_set_below by lia. apply app_nil_r.
  - rewrite decide_False by lia. simpl.
    replace (i + S k) with (S i + k) by lia. by apply IH.
Qed.

(** The first entry with a key in a run is the first one of the first
    reader that has the key. *)
Lemma first_with_tagged join key i readers k rdr :
  readers !! k = Some rdr →
  (∀ j rdr', j < k → readers !! j = Some rdr' →
             key ∉ keygen join <$> entries rdr') →
  is_Some (first_with join key (entries rdr)) →
  first_with join key (snd <$> tagged i readers) =
  first_with join key (entries rdr).
Proof.
  revert i k. induction readers as [|r0 rest IH]; intros i k Hk Hbefore Hs;
    [done|].
  simpl. rewrite fmap_app, snd_pair, first_with_app.
  destruct k as [|k]; simpl in Hk.
  - injection Hk as ->. by destruct Hs as [f ->].
  - assert (first_with join key (entries r0) = None) as ->.
    { apply first_with_None. apply (Hbefore 0 r0); [lia | done]. }
    apply (IH (S i) k); [done| |done].
    intros j rdr' Hj Hr. apply (Hbefore (S j) rdr'); [lia | done].
Qed.

Lemma NoDup_once (l : list string) (x : string) :
  NoDup l → x ∈ l → length (filter (fun y => y = x) l) = 1.
Proof.
  induction 1 as [|a l Ha Hnd IH]; [by intros ?%elem_of_nil|].
  intros [->|Hin]%elem_of_cons.
  - rewrite filter_cons_True by done. simpl. f_equal.
    apply length_zero_iff_nil. induction l as [|b l IHl]; [done|].
    apply not_elem_of_cons in Ha as [? ?].
    rewrite filter_cons_False by done. inversion Hnd; subst. by apply IHl.
  - rewrite filter_cons_False by (intros ->; done). by apply IH.
Qed.

End Invariant.

(** ** Failures before any reading *)

(** C8: [Compare] always returns.  With fewer than two paths it returns
    the error of line 77 without any call to the outside: no file is
    opened, no entry read, nothing written, and the writer is as it was.
    When a path does not open, it returns the error of the first such
    path, the writer is as it was, and the only calls made are the
    openings of the paths up to that one.  In every run a call of [Next]
    comes after the openings of all the paths, and no opening follows. *)
Theorem Compare_fails_before_reading `{World} (w : Writer) (join : Z)
    (paths : list string) :
  ∃ r,
    Compare w join paths = Ret r ∧
    (length paths < 2 →
     ret r = Some (too_few (length paths)) ∧ out r = w ∧ log r = []) ∧
    (∀ p e, 2 ≤ length paths → p ∈ paths → Open p = inl e →
       ∃ k q err, paths !! k = Some q ∧ Open q = inl err ∧
                  ret r = Some err ∧ out r = w ∧
                  log r = EvOpen <$> take (S k) paths) ∧
    (∀ i, EvNext i ∈ log r →
       ∃ evs, log r = (EvOpen <$> paths) ++ evs ∧
              Forall (fun ev => ¬ is_open ev) evs).
Proof.
  unfold Compare. case_decide as Hlen.
  { eexists. split; [done|]. simpl. split; [done|]. split; [lia|].
    by intros i ?%elem_of_nil. }
  destruct (open_all paths) as [evs0 [err|readers]] eqn:Ho.
  - apply open_all_inl in Ho as (k & q & Hq & Hoq & ->).
    eexists. split; [done|]. simpl. split; [lia|]. split.
    + intros _ _ _ _ _. by exists k, q, err.
    + intros i Hin. by apply list_elem_of_fmap in Hin as (? & ? & ?).
  - destruct (table_of_represents join readers) as (t & Ht & _).
    rewrite (reconcile_spec _ _ _ _ Ht). simpl.
    eexists. split; [done|]. simpl. split; [lia|]. split.
    + intros p e _ Hp He.
      destruct (open_all_fails _ _ _ Hp He) as (? & ? & ?). congruence.
    + intros i _. apply open_all_inr in Ho as [-> _].
      eexists. split; [done|]. rewrite !Forall_app. split; [|split].
      * eapply Forall_impl; [apply nexts_are_next|]. intros []; simpl; tauto.
      * apply Forall_fmap, Forall_forall. intros ? _. simpl. tauto.
      * destruct (first_write_error w (mismatches t)); simpl; [done|].
        case_decide; repeat constructor; simpl; tauto.
Qed.

Lemma Compare_fails_before_reading_witness :
  (∃ r, Compare (H := sample.disk) (sample.fresh 10) Join.Path ["a.csv"] = Ret r ∧
        ret r = Some (too_few (H := sample.disk) 1) ∧
        out r = sample.fresh 10 ∧ log r = []) ∧
  (∃ r k q err,
     Compare (H := sample.disk) (sample.fresh 10) Join.Path
       ["a.csv"; "none.csv"; "b.csv"] = Ret r ∧
     ["a.csv"; "none.csv"; "b.csv"] !! k = Some q ∧
     Open (World := sample.disk) q = inl err ∧
     ret r = Some err ∧ out r = sample.fresh 10 ∧
     log r = EvOpen <$> take (S k) ["a.csv"; "none.csv"; "b.csv"]).
Proof.
  split.
  - destruct (Compare_fails_before_reading (H := sample.disk)
                (sample.fresh 10) Join.Path ["a.csv"]) as (r & Hr & Hfew & _).
    exists r. split; [exact Hr|]. apply Hfew. simpl; lia.
  - destruct (Compare_fails_before_reading (H := sample.disk)
                (sample.fresh 10) Join.Path ["a.csv"; "none.csv"; "b.csv"])
      as (r & Hr & _ & Hopen & _).
    destruct (Hopen "none.csv" sample.no_such_file)
      as (k & q & err & Hk & Hq & Hret & Hout & Hlog).
    + simpl; lia.
    + right; left.
    + reflexivity.
    + exists r, k, q, err.
      exact (conj Hr (conj Hk (conj Hq (conj Hret (conj Hout Hlog))))).
Defined.

(** ** The loader registry *)

Section Registry.
Context {Identifier : Type}.
Implicit Types (loaders : loader_table Identifier) (ls : LoadSaver).

Lemma index_in_range loaders n :
  n < 8 → ∃ l, index loaders n = Ret l.
Proof. intros Hn. unfold index. case_decide; [eauto | lia]. Qed.

Lemma index_out_of_range_panics loaders n :
  8 ≤ n → index loaders n = Panic index_out_of_range.
Proof. intros Hn. unfold index. case_decide; [lia | done]. Qed.

Lemma LoadByte_healthy (b : byte) (bs : list byte) :
  LoadByte (cursor (b :: bs)) = (b, mkLoadSaver (b :: bs) 1 None).
Proof. done. Qed.

Lemma LoadByte_poisoned ls e :
  Err ls = Some e → LoadByte ls = (x00, ls).
Proof. intros He. unfold LoadByte. by rewrite He. Qed.

(** A tag within the table whose slot is nil: no identifier, and the
    error is recorded on the cursor. *)
Lemma LoadIdentifier_nil_slot loaders (b : byte) (bs : list byte) :
  index loaders (Byte.to_nat b) = Ret None →
  LoadIdentifier loaders (cursor (b :: bs)) =
  Ret (None, mkLoadSaver (b :: bs) 1 (Some bad_identifier_loader)).
Proof. intros Hi. unfold LoadIdentifier. rewrite LoadByte_healthy, Hi. done. Qed.

(** A cursor that carries an error reads tag 0; if that slot is nil the
    cursor is returned as it was, error included. *)
Lemma LoadIdentifier_keeps_error loaders ls e :
  Err ls = Some e → index loaders 0 = Ret None →
  LoadIdentifier loaders ls = Ret (None, ls).
Proof.
  intros He Hi. unfold LoadIdentifier. rewrite (LoadByte_poisoned _ e He).
  change (Byte.to_nat x00) with 0. rewrite Hi. simpl. by rewrite He.
Qed.

End Registry.

(** C7 is what the code sets out to do and does for the tags 0 to 7: with
    the registry of the program, whose only loader is that of tag 0, the
    tag 1 gives no identifier and the error "bad identifier loader" on the
    cursor, and a cursor that already carries an error keeps it.  The tag
    9 has no loader either, and there [LoadIdentifier] panics on the lookup
    in its table of 8 slots instead of recording the error. *)
Theorem LoadIdentifier_unregistered_tag :
  LoadIdentifier sample.registry (cursor [x01; x2a]) =
    Ret (None, mkLoadSaver [x01; x2a] 1 (Some bad_identifier_loader)) ∧
  LoadIdentifier (Identifier := string) loaders0
      (mkLoadSaver [x01; x2a] 0 (Some truncated)) =
    Ret (None, mkLoadSaver [x01; x2a] 0 (Some truncated)) ∧
  LoadIdentifier sample.registry (cursor [x09; x2a]) =
    Panic index_out_of_range.
Proof. split; [|split]; by vm_compute. Qed.

(** C9 fails on the code: a tag byte from 8 to 255 read from a healthy
    cursor is outside the table of 8 slots, whatever loaders are
    registered, and the lookup panics. *)
Theorem LoadIdentifier_tag_out_of_range {Identifier : Type}
    (loaders : loader_table Identifier) (b : byte) (bs : list byte) :
  8 ≤ Byte.to_nat b →
  LoadIdentifier loaders (cursor (b :: bs)) = Panic index_out_of_range.
Proof.
  intros Hb. unfold LoadIdentifier. rewrite LoadByte_healthy.
  by rewrite index_out_of_range_panics.
Qed.

Lemma LoadIdentifier_tag_out_of_range_witness :
  8 ≤ Byte.to_nat x08 ∧
  LoadIdentifier sample.registry (cursor [x08]) = Panic index_out_of_range.
Proof.
  split; [vm_compute; lia|].
  apply (LoadIdentifier_tag_out_of_range sample.registry x08 []).
  vm_compute; lia.
Defined.


(** * Further properties of the two files *)

(** ** The row store stays within bounds *)

Section Safety.
Context `{World}.

Lemma record_entry_fresh_out_of_range join n i f :
  n ≤ i → record_entry join n i f Table_empty = Panic index_out_of_range.
Proof.
  intros Hn. unfold record_entry. simpl. rewrite lookup_empty.
  simpl. rewrite lookup_total_insert_eq. simpl. rewrite length_replicate.
  by rewrite decide_False by lia.
Qed.

End Safety.

(** X1: the store of line 102 never leaves its row.  The rows are made
    with [len(readers) + 1] columns and the index of a reader is below
    [len(readers)], so the reading loops end with a table for all readers
    of all contents, and [Compare] returns on every input; the size of the
    rows is what this rests on, as the same store panics on a fresh key as
    soon as the index is not below the number the row was made for. *)
Theorem Compare_never_panics `{World} (w : Writer) (join : Z)
    (paths : list string) (readers : list Reader) :
  (∃ r, Compare w join paths = Ret r) ∧
  (∃ t, consume join (length readers) 0 readers Table_empty
        = Ret (t, nexts 0 readers)) ∧
  (∀ n i f, n ≤ i →
     record_entry join n i f Table_empty = Panic index_out_of_range).
Proof.
  split; [apply Compare_returns|]. split.
  - destruct (table_of_represents join readers) as (t & Ht & _).
    exists t. rewrite consume_after. unfold table_of in Ht. by rewrite Ht.
  - intros n i f. apply record_entry_fresh_out_of_range.
Qed.

Lemma Compare_never_panics_witness :
  (∃ r, Compare (H := sample.disk) (sample.fresh 10) Join.Path
          ["a.csv"; "b.csv"] = Ret r) ∧
  (∃ t, consume (H := sample.disk) Join.Path 2 0 [sample.set_a; sample.set_b]
          Table_empty = Ret (t, nexts 0 [sample.set_a; sample.set_b])) ∧
  2 ≤ 2 ∧
  record_entry (H := sample.disk) Join.Path 2 2 (sample.entry "x" ["fmt/1"])
    Table_empty = Panic index_out_of_range.
Proof.
  destruct (Compare_never_panics (H := sample.disk) (sample.fresh 10)
              Join.Path ["a.csv"; "b.csv"] [sample.set_a; sample.set_b])
    as (Hr & Ht & Hp).
  split; [exact Hr|]. split; [exact Ht|]. split; [lia|].
  apply Hp. lia.
Defined.

(** ** What a run depends on *)

Section Congruence.
Context `{World}.

Lemma record_entry_alike join join' n i f f' (t : Table) :
  alike join join' f f' →
  record_entry join n i f t = record_entry join' n i f' t.
Proof. intros (Hk & Hp & Hi). unfold record_entry. by rewrite Hk, Hp, Hi. Qed.

Lemma after_alike join join' n (es es' : list (nat * File)) (t : Table) :
  Forall2 (fun p p' => p.1 = p'.1 ∧ alike join join' p.2 p'.2) es es' →
  after join n es t = after join' n es' t.
Proof.
  intros Hall. revert t.
  induction Hall as [|[i f] [i' f'] es es' [Hi Hf] _ IH]; intros t; [done|].
  simpl in *. subst i'. rewrite (record_entry_alike _ _ _ _ _ _ _ Hf).
  destruct (record_entry join' n i f' t); simpl; [apply IH | done].
Qed.

Lemma tagged_alike join join' i readers readers' :
  readers_alike join join' readers readers' →
  Forall2 (fun p p' => p.1 = p'.1 ∧ alike join join' p.2 p'.2)
          (tagged i readers) (tagged i readers') ∧
  nexts i readers = nexts i readers'.
Proof.
  intros Hall. revert i.
  induction Hall as [|rdr rdr' rest rest' Hr _ IH]; intros i; [done|].
  destruct (IH (S i)) as [Ht Hn]. simpl. split.
  - apply Forall2_app; [|done].
    apply Forall2_fmap. eapply Forall2_impl; [exact Hr|]. done.
  - by rewrite Hn, (Forall2_length _ _ _ Hr).
Qed.

Lemma reconcile_alike w join join' readers readers' :
  readers_alike join join' readers readers' →
  reconcile w join readers = reconcile w join' readers'.
Proof.
  intros Hall.
  destruct (table_of_represents join readers) as (t & Ht & _).
  destruct (tagged_alike join join' 0 _ _ Hall) as [Htag Hn].
  assert (table_of join' readers' = Ret t) as Ht'.
  { unfold table_of in *. rewrite <- (Forall2_length _ _ _ Hall).
    by rewrite <- (after_alike _ _ _ _ _ _ Htag). }
  by rewrite (reconcile_spec _ _ _ _ Ht), (reconcile_spec _ _ _ _ Ht'), Hn.
Qed.

Lemma readers_alike_refl join join' readers :
  (∀ f, keygen join f = keygen join' f) →
  readers_alike join join' readers readers.
Proof.
  intros Hk. apply Forall_Forall2_diag, Forall_forall. intros rdr _.
  apply Forall_Forall2_diag, Forall_forall. intros f _. by split.
Qed.

Lemma keygen_default join f :
  (join < Join.Filename ∨ Join.Hash < join)%Z → keygen join f = Path f.
Proof.
  unfold Join.Filename, Join.Hash. intros Hj. unfold keygen.
  unfold Join.Filename, Join.FilenameSize, Join.FilenameMod,
    Join.FilenameHash, Join.Hash.
  repeat case_decide; lia || done.
Qed.

End Congruence.

(** X2: a join value that names no strategy is not an error: for every
    [join] below [Filename] or above [Hash] the key of an entry is its path
    and the whole run of [Compare] is the run under [Path]. *)
Theorem Compare_join_default `{World} (w : Writer) (join : Z)
    (paths : list string) :
  (join < Join.Filename ∨ Join.Hash < join)%Z →
  (∀ f, keygen join f = Path f) ∧
  Compare w join paths = Compare w Join.Path paths.
Proof.
  intros Hj.
  assert (∀ f, keygen join f = keygen Join.Path f) as Hk.
  { intros f. rewrite !keygen_default; [done| |done].
    unfold Join.Path, Join.Filename. lia. }
  split; [intros f; by apply keygen_default|].
  unfold Compare. case_decide; [done|].
  destruct (open_all paths) as [evs0 [err|readers]]; [done|].
  by rewrite (reconcile_alike w join Join.Path readers readers)
    by by apply readers_alike_refl.
Qed.

Lemma Compare_join_default_witness :
  (42 < Join.Filename ∨ Join.Hash < 42)%Z ∧
  (∀ f, keygen (H := sample.disk) 42 f = Path f) ∧
  Compare (H := sample.disk) (sample.fresh 10) 42 ["a.csv"; "b.csv"] =
  Compare (H := sample.disk) (sample.fresh 10) Join.Path ["a.csv"; "b.csv"].
Proof.
  split; [right; reflexivity|].
  apply (Compare_join_default (H := sample.disk) (sample.fresh 10) 42
           ["a.csv"; "b.csv"]).
  right; reflexivity.
Defined.

(** X3: a run depends on an entry only through its key, its path and its
    column text.  When the entries of two lists of readers are alike one by
    one (the join strategies may differ), lines 87-119 give the same error,
    the same writer and the same calls; so the size, the modification time
    and the hash of an entry, and the order of its identifications, have no
    effect unless they enter the key. *)
Theorem reconcile_depends_on_key_path_ids `{World} (w : Writer) (join join' : Z)
    (readers readers' : list Reader) :
  readers_alike join join' readers readers' →
  reconcile w join readers = reconcile w join' readers'.
Proof. apply reconcile_alike. Qed.

Lemma reconcile_depends_on_key_path_ids_witness :
  readers_alike (H := sample.disk) Join.Path Join.Path
    [sample.whole [mkFile "x" 10 "2017" "h1" (sample.ident <$> ["b"; "a"])];
     sample.set_b]
    [sample.whole [mkFile "x" 99 "2019" "h2" (sample.ident <$> ["a"; "b"])];
     sample.set_b] ∧
  reconcile (H := sample.disk) (sample.fresh 10) Join.Path
    [sample.whole [mkFile "x" 10 "2017" "h1" (sample.ident <$> ["b"; "a"])];
     sample.set_b] =
  reconcile (H := sample.disk) (sample.fresh 10) Join.Path
    [sample.whole [mkFile "x" 99 "2019" "h2" (sample.ident <$> ["a"; "b"])];
     sample.set_b].
Proof.
  assert (readers_alike (H := sample.disk) Join.Path Join.Path
    [sample.whole [mkFile "x" 10 "2017" "h1" (sample.ident <$> ["b"; "a"])];
     sample.set_b]
    [sample.whole [mkFile "x" 99 "2019" "h2" (sample.ident <$> ["a"; "b"])];
     sample.set_b]) as Halike.
  { repeat constructor; vm_compute; reflexivity. }
  split; [exact Halike|].
  apply (reconcile_depends_on_key_path_ids (H := sample.disk)
           (sample.fresh 10) Join.Path Join.Path _ _ Halike).
Defined.

(** ** The rows in closed form *)

Section Cells.
Context `{World}.

Lemma snd_tagged i (readers : list Reader) :
  snd <$> tagged i readers = readers ≫= entries.
Proof.
  revert i. induction readers as [|rdr rest IH]; intros i; [done|].
  simpl. by rewrite fmap_app, snd_pair, IH.
Qed.

Lemma keys_of_tagged join (readers : list Reader) :
  keys_of join (tagged 0 readers) = keygen join <$> (readers ≫= entries).
Proof. by rewrite <- keys_of_snd, snd_tagged. Qed.

Lemma column_tagged join key (readers : list Reader) j rdr :
  readers !! j = Some rdr →
  column join key (tagged 0 readers) j = cell join key rdr.
Proof.
  intros Hj. unfold column, cell.
  pose proof (of_set_tagged 0 readers j rdr Hj) as Hset. simpl in Hset.
  by rewrite Hset.
Qed.

Lemma columns_cells join key (readers : list Reader) :
  column join key (tagged 0 readers) <$> seq 0 (length readers) =
  cell join key <$> readers.
Proof.
  apply list_eq. intros j. rewrite !list_lookup_fmap.
  destruct (readers !! j) as [rdr|] eqn:Hj.
  - rewrite lookup_seq_lt by by eapply lookup_lt_Some.
    simpl. f_equal. by apply column_tagged.
  - by rewrite lookup_seq_ge by by apply lookup_ge_None.
Qed.

Lemma represents_cells join (readers : list Reader) (t : Table) key :
  represents join (length readers) (tagged 0 readers) t →
  results t !! key =
  (f0 ← first_with join key (readers ≫= entries);
   Some (Path f0 :: (cell join key <$> readers))).
Proof.
  intros [_ Hr]. rewrite Hr. unfold row_of.
  by rewrite snd_tagged, columns_cells.
Qed.

Lemma key_in_reader join key (readers : list Reader) :
  key ∈ keygen join <$> (readers ≫= entries) ↔
  ∃ rdr, rdr ∈ readers ∧ key ∈ keygen join <$> entries rdr.
Proof.
  rewrite list_elem_of_fmap. split.
  - intros (f & -> & (rdr & Hf & Hr)%list_elem_of_bind).
    exists rdr. split; [done|]. by apply list_elem_of_fmap_2.
  - intros (rdr & Hr & (f & -> & Hf)%list_elem_of_fmap).
    exists f. split; [done|]. apply list_elem_of_bind. eauto.
Qed.

(** A row of the table matches iff all its cells hold one text. *)
Lemma row_matches_iff join (readers : list Reader) (t : Table) key :
  2 ≤ length readers →
  represents join (length readers) (tagged 0 readers) t →
  key ∈ files t →
  matches (results t !!! key) = true ↔
  ∃ c, ∀ rdr, rdr ∈ readers → cell join key rdr = c.
Proof.
  intros Hn Hrep Hkey.
  destruct (represents_row _ _ _ _ _ Hrep Hkey) as (row & Hrow & -> & Hlen).
  rewrite (represents_cells _ _ _ _ Hrep) in Hrow.
  destruct (first_with _ _ _) as [f0|]; simpl in Hrow; [|done].
  injection Hrow as <-. rewrite matches_spec.
  destruct readers as [|rdr0 rest]; simpl in Hn; [lia|]. split.
  - intros [_ Hall]. exists (cell join key rdr0).
    intros rdr [j Hj]%list_elem_of_lookup. destruct j as [|j].
    + simpl in Hj. by injection Hj as ->.
    + specialize (Hall (S (S j)) (cell join key rdr)). simpl in Hall.
      rewrite list_lookup_fmap in Hall. simpl in Hj. rewrite Hj in Hall.
      assert (Some (cell join key rdr0) = Some (cell join key rdr)) as [= ->];
        [apply Hall; [lia|done] | done].
  - intros [c Hc]. split; [simpl; rewrite length_fmap; simpl in Hn; lia|].
    intros j c' Hj Hc'. destruct j as [|[|j]]; try lia. simpl in *.
    rewrite list_lookup_fmap in Hc'.
    destruct (rest !! j) as [rdr|] eqn:Hr; simpl in Hc'; [|done].
    injection Hc' as <-.
    rewrite (Hc rdr0) by left.
    rewrite (Hc rdr); [done|]. right. by eapply list_elem_of_lookup_2.
Qed.

(** No row mismatches iff every key has one text in all the readers. *)
Lemma complete_iff join (readers : list Reader) (t : Table) :
  2 ≤ length readers →
  represents join (length readers) (tagged 0 readers) t →
  mismatches t = [] ↔
  ∀ key rdr0, rdr0 ∈ readers → key ∈ keygen join <$> entries rdr0 →
    ∃ c, ∀ rdr, rdr ∈ readers → cell join key rdr = c.
Proof.
  intros Hn Hrep. pose proof Hrep as [Hf _]. split.
  - intros Hnil key rdr0 Hr0 Hk.
    assert (key ∈ files t) as Hkey.
    { rewrite Hf, elem_of_first_seen, keys_of_tagged. apply key_in_reader. eauto. }
    apply (row_matches_iff join readers t key Hn Hrep Hkey).
    destruct (matches (results t !!! key)) eqn:Hm; [done|].
    exfalso. eapply (filter_nil_not_elem_of _ _ (results t !!! key));
      [exact Hnil | exact Hm |].
    unfold rows. by apply (list_elem_of_fmap_2 (fun k => results t !!! k)).
  - intros Hall. apply elem_of_nil_inv. intros row.
    unfold mismatches. rewrite list_elem_of_filter. intros [Hm Hin].
    unfold rows in Hin. apply list_elem_of_fmap in Hin as (key & -> & Hkey).
    pose proof Hkey as Hkey'.
    rewrite Hf, elem_of_first_seen, keys_of_tagged in Hkey'.
    apply key_in_reader in Hkey' as (rdr0 & Hr0 & Hk).
    specialize (Hall key rdr0 Hr0 Hk).
    apply (row_matches_iff join readers t key Hn Hrep Hkey) in Hall.
    congruence.
Qed.

End Cells.

(** X4: the table the reading loops end with, in closed form.  Its keys
    are those of the entries of all readers in the order of their first
    appearance; the row of a key is the path of the first entry that has
    the key followed by one cell for every reader, in the order of the
    readers: the text of the last entry of that reader with the key, or
    "MISSING" when the reader has none; a key no entry has is not in the
    map. *)
Theorem table_closed_form `{World} (join : Z) (readers : list Reader) :
  ∃ t,
    consume join (length readers) 0 readers Table_empty
      = Ret (t, nexts 0 readers) ∧
    files t = first_seen (keygen join <$> (readers ≫= entries)) ∧
    ∀ key,
      results t !! key =
      (f0 ← first_with join key (readers ≫= entries);
       Some (Path f0 :: (cell join key <$> readers))).
Proof.
  destruct (table_of_represents join readers) as (t & Ht & Hrep).
  exists t. split.
  { rewrite consume_after. unfold table_of in Ht. by rewrite Ht. }
  split.
  - destruct Hrep as [-> _]. by rewrite keys_of_tagged.
  - intros key. by apply represents_cells.
Qed.

(** X5: which rows match.  For at least two readers, the row of a key of
    the table matches iff the cells of all the readers for that key hold
    one and the same text. *)
Theorem row_matches_iff_cells_agree `{World} (join : Z) (readers : list Reader) :
  2 ≤ length readers →
  ∃ t,
    table_of join readers = Ret t ∧
    ∀ key, key ∈ files t →
      (matches (results t !!! key) = true ↔
       ∃ c, ∀ rdr, rdr ∈ readers → cell join key rdr = c).
Proof.
  intros Hn. destruct (table_of_represents join readers) as (t & Ht & Hrep).
  exists t. split; [done|]. intros key Hkey. by apply row_matches_iff.
Qed.

Lemma row_matches_iff_cells_agree_witness :
  2 ≤ length [sample.set_a; sample.set_b] ∧
  ∃ t,
    table_of (H := sample.disk) Join.Path [sample.set_a; sample.set_b] = Ret t ∧
    ∀ key, key ∈ files t →
      (matches (results t !!! key) = true ↔
       ∃ c, ∀ rdr, rdr ∈ [sample.set_a; sample.set_b] →
                   cell (H := sample.disk) Join.Path key rdr = c).
Proof.
  split; [simpl; lia|].
  apply (row_matches_iff_cells_agree (H := sample.disk) Join.Path
           [sample.set_a; sample.set_b]).
  simpl; lia.
Defined.

(** ** Keys that a reader lacks, equal inputs, and the order of the inputs *)

Section Verdict.
Context `{World}.

Lemma cell_MISSING join key rdr :
  key ∉ keygen join <$> entries rdr → cell join key rdr = MISSING.
Proof. intros Hno%last_with_None. unfold cell. by rewrite Hno. Qed.

Lemma cell_entries join key rdr rdr' :
  entries rdr = entries rdr' → cell join key rdr = cell join key rdr'.
Proof. intros He. unfold cell. by rewrite He. Qed.

Lemma marker_iff_complete w join paths evs0 readers :
  2 ≤ length paths → open_all paths = (evs0, inr readers) →
  ∃ r t,
    Compare w join paths = Ret r ∧ table_of join readers = Ret t ∧
    represents join (length readers) (tagged 0 readers) t ∧
    2 ≤ length readers ∧
    (ret r = None → written (log r) = mismatches t) ∧
    (mismatches t = [] → ret r = None ∧ written (log r) = []) ∧
    (EvFprint COMPLETE_MATCH ∈ log r ↔ mismatches t = []).
Proof.
  intros Hlen Ho.
  destruct (Compare_run w join paths evs0 readers Hlen Ho)
    as (r & t & Hr & Ht & Hrep & Hn & Hret & Hw & Hm & _).
  exists r, t. split; [done|]. split; [done|]. split; [done|].
  split; [lia|]. rewrite Hw, Hret, Hm.
  split; [apply first_write_error_None|]. split.
  - by intros ->.
  - split; [tauto|]. by intros ->.
Qed.

Lemma open_all_opened paths evs readers :
  open_all paths = (evs, inr readers) →
  readers = opened paths ∧ Forall (fun p => ∃ rdr, Open p = inr rdr) paths.
Proof.
  intros [_ Hall]%open_all_inr.
  induction Hall as [|p rdr paths readers Hp _ [IHr IHf]]; [done|].
  split.
  - unfold opened. simpl. rewrite Hp. simpl. f_equal. exact IHr.
  - constructor; eauto.
Qed.

Lemma open_all_ok paths :
  Forall (fun p => ∃ rdr, Open p = inr rdr) paths →
  open_all paths = (EvOpen <$> paths, inr (opened paths)).
Proof.
  induction 1 as [|p paths [rdr Hp] _ IH]; [done|].
  simpl. rewrite Hp, IH. unfold opened. simpl. by rewrite ?Hp.
Qed.

End Verdict.

(** X6: a key that one reader lacks is reported.  In a run whose files
    all open, if some reader has no entry with a key and another reader's
    last entry with that key has a column text other than "MISSING", the
    row of the key does not match, and it is among the records written
    whenever [Compare] returns nil. *)
Theorem absent_key_is_reported `{World} (w : Writer) (join : Z)
    (paths : list string) (evs0 : list event) (readers : list Reader)
    (rdr rdr' : Reader) (key : string) (f : File) :
  2 ≤ length paths → open_all paths = (evs0, inr readers) →
  rdr ∈ readers → key ∉ keygen join <$> entries rdr →
  rdr' ∈ readers → last_with join key (entries rdr') = Some f →
  idStr f ≠ MISSING →
  ∃ r t,
    Compare w join paths = Ret r ∧ table_of join readers = Ret t ∧
    key ∈ files t ∧
    matches (results t !!! key) = false ∧
    (ret r = None → results t !!! key ∈ written (log r)).
Proof.
  intros Hlen Ho Hr Hno Hr' Hlast Hid.
  destruct (marker_iff_complete w join paths evs0 readers Hlen Ho)
    as (r & t & Hrun & Ht & Hrep & Hn & Hw & _).
  assert (key ∈ files t) as Hkey.
  { destruct Hrep as [-> _]. rewrite elem_of_first_seen, keys_of_tagged.
    apply key_in_reader. exists rdr'. split; [done|].
    apply last_with_Some in Hlast as [Hin <-]. by apply list_elem_of_fmap_2. }
  assert (matches (results t !!! key) = false) as Hm.
  { destruct (matches (results t !!! key)) eqn:Hm; [|done].
    apply (row_matches_iff join readers t key Hn Hrep Hkey) in Hm as [c Hc].
    pose proof (Hc rdr Hr) as Hc1. pose proof (Hc rdr' Hr') as Hc2.
    rewrite cell_MISSING in Hc1 by done. unfold cell in Hc2.
    rewrite Hlast in Hc2. congruence. }
  exists r, t. split; [done|]. split; [done|]. split; [done|].
  split; [done|]. intros Hret. rewrite (Hw Hret).
  unfold mismatches. apply list_elem_of_filter. split; [done|].
  unfold rows. by apply (list_elem_of_fmap_2 (fun k => results t !!! k)).
Qed.

Lemma absent_key_is_reported_witness :
  2 ≤ length ["a.csv"; "b.csv"] ∧
  open_all (H := sample.disk) ["a.csv"; "b.csv"] =
    ([EvOpen "a.csv"; EvOpen "b.csv"], inr [sample.set_a; sample.set_b]) ∧
  sample.set_b ∈ [sample.set_a; sample.set_b] ∧
  ("/d/y" ∉ keygen (H := sample.disk) Join.Path <$> entries sample.set_b) ∧
  sample.set_a ∈ [sample.set_a; sample.set_b] ∧
  last_with (H := sample.disk) Join.Path "/d/y" (entries sample.set_a) =
    Some (sample.entry "/d/y" ["b"; "a"; "a"]) ∧
  idStr (sample.entry "/d/y" ["b"; "a"; "a"]) ≠ MISSING ∧
  ∃ r t,
    Compare (H := sample.disk) (sample.fresh 10) Join.Path ["a.csv"; "b.csv"]
      = Ret r ∧
    table_of (H := sample.disk) Join.Path [sample.set_a; sample.set_b] = Ret t ∧
    "/d/y" ∈ files t ∧
    matches (results t !!! "/d/y") = false ∧
    (ret r = None → results t !!! "/d/y" ∈ written (log r)).
Proof.
  assert ("/d/y" ∉ keygen (H := sample.disk) Join.Path
                     <$> entries sample.set_b) as Hno.
  { vm_compute. intros Hin. inversion Hin as [|? ? ? Hin']; subst.
    inversion Hin'. }
  assert (sample.set_b ∈ [sample.set_a; sample.set_b]) as Hb
    by (right; left).
  assert (sample.set_a ∈ [sample.set_a; sample.set_b]) as Ha by left.
  assert (idStr (sample.entry "/d/y" ["b"; "a"; "a"]) ≠ MISSING) as Hid
    by (vm_compute; discriminate).
  split; [simpl; lia|]. split; [reflexivity|]. split; [exact Hb|].
  split; [exact Hno|]. split; [exact Ha|]. split; [reflexivity|].
  split; [exact Hid|].
  apply (absent_key_is_reported (H := sample.disk) (sample.fresh 10) Join.Path
           ["a.csv"; "b.csv"] [EvOpen "a.csv"; EvOpen "b.csv"]
           [sample.set_a; sample.set_b] sample.set_b sample.set_a "/d/y"
           (sample.entry "/d/y" ["b"; "a"; "a"]));
    [simpl; lia | reflexivity | exact Hb | exact Hno | exact Ha
    | reflexivity | exact Hid].
Defined.

(** X7: result sets with the same entries are a complete match.  In a run
    whose files all open and whose readers all yield the same entries (a
    results file compared with itself or with a copy), no record is
    written, the marker is printed and [Compare] returns nil. *)
Theorem equal_inputs_complete_match `{World} (w : Writer) (join : Z)
    (paths : list string) (evs0 : list event) (readers : list Reader) :
  2 ≤ length paths → open_all paths = (evs0, inr readers) →
  (∀ rdr rdr', rdr ∈ readers → rdr' ∈ readers → entries rdr = entries rdr') →
  ∃ r,
    Compare w join paths = Ret r ∧ ret r = None ∧
    written (log r) = [] ∧ EvFprint COMPLETE_MATCH ∈ log r.
Proof.
  intros Hlen Ho Hsame.
  destruct (marker_iff_complete w join paths evs0 readers Hlen Ho)
    as (r & t & Hrun & Ht & Hrep & Hn & _ & Hnone & Hm).
  assert (mismatches t = []) as Hnil.
  { apply (complete_iff join readers t Hn Hrep).
    intros key rdr0 Hr0 _. exists (cell join key rdr0).
    intros rdr Hr. apply cell_entries. by apply Hsame. }
  exists r. split; [done|]. destruct (Hnone Hnil) as [-> ->].
  split; [done|]. split; [done|]. by apply Hm.
Qed.

Lemma equal_inputs_complete_match_witness :
  2 ≤ length ["a.csv"; "a.csv"; "a.csv"] ∧
  open_all (H := sample.disk) ["a.csv"; "a.csv"; "a.csv"] =
    ([EvOpen "a.csv"; EvOpen "a.csv"; EvOpen "a.csv"],
     inr [sample.set_a; sample.set_a; sample.set_a]) ∧
  (∀ rdr rdr', rdr ∈ [sample.set_a; sample.set_a; sample.set_a] →
               rdr' ∈ [sample.set_a; sample.set_a; sample.set_a] →
               entries rdr = entries rdr') ∧
  ∃ r,
    Compare (H := sample.disk) (sample.fresh 0) Join.FilenameSize
      ["a.csv"; "a.csv"; "a.csv"] = Ret r ∧
    ret r = None ∧ written (log r) = [] ∧ EvFprint COMPLETE_MATCH ∈ log r.
Proof.
  assert (∀ rdr rdr', rdr ∈ [sample.set_a; sample.set_a; sample.set_a] →
                      rdr' ∈ [sample.set_a; sample.set_a; sample.set_a] →
                      entries rdr = entries rdr') as Hsame.
  { intros rdr rdr' Hr Hr'.
    assert (∀ x, x ∈ [sample.set_a; sample.set_a; sample.set_a] →
                 x = sample.set_a) as Hall.
    { intros x Hx. repeat (apply elem_of_cons in Hx as [Hx|Hx]; [exact Hx|]).
      by apply elem_of_nil in Hx. }
    by rewrite (Hall rdr Hr), (Hall rdr' Hr'). }
  split; [simpl; lia|]. split; [reflexivity|]. split; [exact Hsame|].
  apply (equal_inputs_complete_match (H := sample.disk) (sample.fresh 0)
           Join.FilenameSize ["a.csv"; "a.csv"; "a.csv"]
           [EvOpen "a.csv"; EvOpen "a.csv"; EvOpen "a.csv"]
           [sample.set_a; sample.set_a; sample.set_a]);
    [simpl; lia | reflexivity | exact Hsame].
Defined.

Section Order.
Context `{World}.

Lemma verdict_Permutation join (readers readers' : list Reader) (t t' : Table) :
  readers ≡ₚ readers' → 2 ≤ length readers →
  represents join (length readers) (tagged 0 readers) t →
  represents join (length readers') (tagged 0 readers') t' →
  files t ≡ₚ files t' ∧
  (∀ key, key ∈ files t →
     matches (results t !!! key) = matches (results t' !!! key)) ∧
  (mismatches t = [] ↔ mismatches t' = []).
Proof.
  intros Hp Hn Hrep Hrep'.
  assert (2 ≤ length readers') as Hn' by by rewrite <- Hp.
  assert (∀ rdr, rdr ∈ readers ↔ rdr ∈ readers') as Hin
    by (intros rdr; by rewrite Hp).
  assert (∀ key, key ∈ files t ↔ key ∈ files t') as Hkeys.
  { intros key. destruct Hrep as [-> _], Hrep' as [-> _].
    rewrite !elem_of_first_seen, !keys_of_tagged, !key_in_reader.
    split; intros (rdr & Hr & Hk); exists rdr; (split; [by apply Hin|done]). }
  split; [|split].
  - apply NoDup_Permutation; [| |done].
    + destruct Hrep as [-> _]. apply NoDup_first_seen.
    + destruct Hrep' as [-> _]. apply NoDup_first_seen.
  - intros key Hkey. pose proof Hkey as Hkey'%Hkeys.
    pose proof (row_matches_iff join readers t key Hn Hrep Hkey) as Hm.
    pose proof (row_matches_iff join readers' t' key Hn' Hrep' Hkey') as Hm'.
    assert (matches (results t !!! key) = true ↔
            matches (results t' !!! key) = true) as Hiff.
    { rewrite Hm, Hm'. split; intros [c Hc]; exists c; intros rdr Hr;
        apply Hc; by apply Hin. }
    destruct (matches (results t !!! key)), (matches (results t' !!! key));
      try done; destruct Hiff as [H1 H2]; [by rewrite H1 | by rewrite H2].
  - rewrite (complete_iff join readers t Hn Hrep),
      (complete_iff join readers' t' Hn' Hrep').
    split; intros Hall key rdr0 Hr0 Hk.
    + destruct (Hall key rdr0) as [c Hc]; [by apply Hin|done|].
      exists c. intros rdr Hr. apply Hc. by apply Hin.
    + destruct (Hall key rdr0) as [c Hc]; [by apply Hin|done|].
      exists c. intros rdr Hr. apply Hc. by apply Hin.
Qed.

End Order.

(** X8: the order in which the result files are given changes the order
    of the columns and of the rows, not the verdict.  For two lists of
    paths that are permutations of each other and open, the two tables have
    the same keys, a key's row matches in the one iff it matches in the
    other, and the marker is printed in the one run iff it is printed in
    the other. *)
Theorem order_of_inputs `{World} (w w' : Writer) (join : Z)
    (paths paths' : list string) (evs0 : list event) (readers : list Reader) :
  2 ≤ length paths → open_all paths = (evs0, inr readers) → paths ≡ₚ paths' →
  ∃ r r' t t',
    Compare w join paths = Ret r ∧ Compare w' join paths' = Ret r' ∧
    table_of join readers = Ret t ∧ table_of join (opened paths') = Ret t' ∧
    files t ≡ₚ files t' ∧
    (∀ key, key ∈ files t →
       matches (results t !!! key) = matches (results t' !!! key)) ∧
    (EvFprint COMPLETE_MATCH ∈ log r ↔ EvFprint COMPLETE_MATCH ∈ log r').
Proof.
  intros Hlen Ho Hp.
  destruct (open_all_opened _ _ _ Ho) as [Hr Hok].
  assert (open_all paths' = (EvOpen <$> paths', inr (opened paths'))) as Ho'.
  { apply open_all_ok. by rewrite <- Hp. }
  assert (2 ≤ length paths') as Hlen' by by rewrite <- Hp.
  assert (readers ≡ₚ opened paths') as Hperm.
  { rewrite Hr. unfold opened. by rewrite Hp. }
  destruct (marker_iff_complete w join paths evs0 readers Hlen Ho)
    as (r & t & Hrun & Ht & Hrep & Hn & _ & _ & Hm).
  destruct (marker_iff_complete w' join paths' _ _ Hlen' Ho')
    as (r' & t' & Hrun' & Ht' & Hrep' & _ & _ & _ & Hm').
  destruct (verdict_Permutation join _ _ t t' Hperm Hn Hrep Hrep')
    as (Hfiles & Hrows & Hnil).
  exists r, r', t, t'. rewrite Hm, Hm'. done.
Qed.

Lemma order_of_inputs_witness :
  2 ≤ length ["a.csv"; "b.csv"] ∧
  open_all (H := sample.disk) ["a.csv"; "b.csv"] =
    ([EvOpen "a.csv"; EvOpen "b.csv"], inr [sample.set_a; sample.set_b]) ∧
  ["a.csv"; "b.csv"] ≡ₚ ["b.csv"; "a.csv"] ∧
  ∃ r r' t t',
    Compare (H := sample.disk) (sample.fresh 10) Join.Path ["a.csv"; "b.csv"]
      = Ret r ∧
    Compare (H := sample.disk) (sample.fresh 10) Join.Path ["b.csv"; "a.csv"]
      = Ret r' ∧
    table_of (H := sample.disk) Join.Path [sample.set_a; sample.set_b] = Ret t ∧
    table_of (H := sample.disk) Join.Path
      (opened (H := sample.disk) ["b.csv"; "a.csv"]) = Ret t' ∧
    files t ≡ₚ files t' ∧
    (∀ key, key ∈ files t →
       matches (results t !!! key) = matches (results t' !!! key)) ∧
    (EvFprint COMPLETE_MATCH ∈ log r ↔ EvFprint COMPLETE_MATCH ∈ log r').
Proof.
  split; [simpl; lia|]. split; [reflexivity|]. split; [apply perm_swap|].
  apply (order_of_inputs (H := sample.disk) (sample.fresh 10) (sample.fresh 10)
           Join.Path ["a.csv"; "b.csv"] ["b.csv"; "a.csv"]
           [EvOpen "a.csv"; EvOpen "b.csv"] [sample.set_a; sample.set_b]);
    [simpl; lia | reflexivity | apply perm_swap].
Defined.

(** ** The order of the calls *)

(** X9: the calls of a run whose files all open come in this order: the
    openings of all the paths; for every reader in turn one [Next] for each
    of its entries and one for the error that ends it; the writes; and,
    only when no write failed, one [Flush], followed by the print of the
    marker iff no record was written.  After a write that fails neither
    [Flush] nor [Fprint] is called. *)
Theorem Compare_call_order `{World} (w : Writer) (join : Z)
    (paths : list string) (evs0 : list event) (readers : list Reader) :
  2 ≤ length paths → open_all paths = (evs0, inr readers) →
  ∃ r,
    Compare w join paths = Ret r ∧
    log r =
      (EvOpen <$> paths) ++ nexts 0 readers ++ (EvWrite <$> written (log r))
        ++ match ret r with
           | Some _ => []
           | None =>
               EvFlush :: if decide (written (log r) = [])
                          then [EvFprint COMPLETE_MATCH] else []
           end.
Proof.
  intros Hlen Ho.
  destruct (Compare_run w join paths evs0 readers Hlen Ho)
    as (r & t & Hr & Ht & _ & _ & Hret & Hw & _ & Hlog).
  exists r. split; [done|]. rewrite Hw. rewrite Hlog at 1.
  do 3 f_equal. unfold closing. destruct (ret r); [done|].
  symmetry in Hret. by rewrite (first_write_error_None _ _ Hret).
Qed.

Lemma Compare_call_order_witness :
  2 ≤ length ["a.csv"; "b.csv"] ∧
  open_all (H := sample.disk) ["a.csv"; "b.csv"] =
    ([EvOpen "a.csv"; EvOpen "b.csv"], inr [sample.set_a; sample.set_b]) ∧
  ∃ r,
    Compare (H := sample.disk) (sample.fresh 1) Join.Path ["a.csv"; "b.csv"]
      = Ret r ∧
    log r =
      (EvOpen <$> ["a.csv"; "b.csv"]) ++ nexts 0 [sample.set_a; sample.set_b]
        ++ (EvWrite <$> written (log r))
        ++ match ret r with
           | Some _ => []
           | None =>
               EvFlush :: if decide (written (log r) = [])
                          then [EvFprint COMPLETE_MATCH] else []
           end.
Proof.
  split; [simpl; lia|]. split; [reflexivity|].
  apply (Compare_call_order (H := sample.disk) (sample.fresh 1) Join.Path
           ["a.csv"; "b.csv"] [EvOpen "a.csv"; EvOpen "b.csv"]
           [sample.set_a; sample.set_b]);
    [simpl; lia | reflexivity].
Defined.

(** ** Column texts and the identifications behind them *)

Lemma has_semicolon_app (a b : string) :
  has_semicolon (a +:+ b) = has_semicolon a || has_semicolon b.
Proof.
  induction a as [|c a IH]; simpl; [done|]. by rewrite IH, orb_assoc.
Qed.

Lemma sep_app_inj (a a' s s' : string) :
  has_semicolon a = false → has_semicolon a' = false →
  a +:+ ";" +:+ s = a' +:+ ";" +:+ s' → a = a' ∧ s = s'.
Proof.
  revert a'. induction a as [|c a IH]; intros [|c' a'] Ha Ha' Heq;
    simpl in *.
  - injection Heq as Heq. cbn in Heq. by subst.
  - injection Heq as <- _. by rewrite bool_decide_eq_true_2 in Ha'.
  - injection Heq as -> _. by rewrite bool_decide_eq_true_2 in Ha.
  - injection Heq as -> Heq.
    apply orb_false_iff in Ha as [_ Ha], Ha' as [_ Ha'].
    destruct (IH a' Ha Ha' Heq) as [-> ->]. done.
Qed.

Lemma Join_cons_cons (e x : string) (r : list string) (sep : string) :
  strings.Join (e :: x :: r) sep = e +:+ sep +:+ strings.Join (x :: r) sep.
Proof. done. Qed.

Lemma Join_sep_has_semicolon (e x : string) (r : list string) :
  has_semicolon (strings.Join (e :: x :: r) ";") = true.
Proof.
  rewrite Join_cons_cons, !has_semicolon_app. simpl.
  by rewrite orb_true_r.
Qed.

Lemma Join_plain_inj (l l' : list string) :
  Forall plain l → Forall plain l' →
  strings.Join l ";" = strings.Join l' ";" → l = l'.
Proof.
  intros Hl. revert l'.
  induction Hl as [|e r [He Hs] Hr IH]; intros l' Hl' Hj.
  - destruct Hl' as [|e' r' [He' Hs'] Hr']; [done|]. exfalso.
    destruct r' as [|x' r'].
    + simpl in Hj. by subst.
    + rewrite Join_cons_cons in Hj. simpl in Hj. by destruct e'.
  - destruct Hl' as [|e' r' [He' Hs'] Hr'].
    { exfalso. destruct r as [|x r].
      - simpl in Hj. by subst.
      - rewrite Join_cons_cons in Hj. simpl in Hj. by destruct e. }
    destruct r as [|x r], r' as [|x' r'].
    + simpl in Hj. by subst.
    + exfalso. change (strings.Join [e] ";") with e in Hj.
      rewrite Hj, Join_sep_has_semicolon in Hs. done.
    + exfalso. change (strings.Join [e'] ";") with e' in Hj.
      rewrite <- Hj, Join_sep_has_semicolon in Hs'. done.
    + rewrite !Join_cons_cons in Hj.
      destruct (sep_app_inj _ _ _ _ Hs Hs' Hj) as [-> Hrest].
      f_equal. by apply IH.
Qed.

(** X10: the column text tells the identifications.  For two entries whose
    identification strings are not empty and hold no semicolon, [idStr]
    gives the same text iff the two entries have the same identification
    strings up to their order, each as often in the one as in the other. *)
Theorem idStr_eq_iff_same_ids (fi fi' : File) :
  Forall plain (core.String <$> IDs fi) →
  Forall plain (core.String <$> IDs fi') →
  idStr fi = idStr fi' ↔ core.String <$> IDs fi ≡ₚ core.String <$> IDs fi'.
Proof.
  intros Hp Hp'. split.
  - unfold idStr. intros Hj. apply Join_plain_inj in Hj.
    + by rewrite <- (Strings_perm (core.String <$> IDs fi)), Hj, Strings_perm.
    + by rewrite Strings_perm.
    + by rewrite Strings_perm.
  - intros Hperm. unfold idStr. f_equal. by apply Strings_of_perm.
Qed.

Lemma idStr_eq_iff_same_ids_witness :
  Forall plain (core.String <$> IDs (sample.entry "x" ["fmt/2"; "fmt/1"])) ∧
  Forall plain (core.String <$> IDs (sample.entry "y" ["fmt/1"; "fmt/2"])) ∧
  (idStr (sample.entry "x" ["fmt/2"; "fmt/1"]) =
   idStr (sample.entry "y" ["fmt/1"; "fmt/2"]) ↔
   core.String <$> IDs (sample.entry "x" ["fmt/2"; "fmt/1"]) ≡ₚ
   core.String <$> IDs (sample.entry "y" ["fmt/1"; "fmt/2"])).
Proof.
  assert (Forall plain (core.String <$> IDs (sample.entry "x" ["fmt/2"; "fmt/1"])))
    as Hx by (repeat constructor; done).
  assert (Forall plain (core.String <$> IDs (sample.entry "y" ["fmt/1"; "fmt/2"])))
    as Hy by (repeat constructor; done).
  split; [exact Hx|]. split; [exact Hy|].
  apply (idStr_eq_iff_same_ids _ _ Hx Hy).
Defined.

(** ** Registering and loading *)

Section Registering.
Context {Identifier : Type}.
Implicit Types (loaders : loader_table Identifier)
  (l : option (IdentifierLoader Identifier)).

Lemma nat_to_fin_proof_irrel (n m : nat) (H1 H2 : n < m) :
  nat_to_fin H1 = nat_to_fin H2.
Proof. apply (inj fin_to_nat). by rewrite !fin_to_nat_to_fin. Qed.

Lemma RegisterIdentifier_Ret loaders (id : byte) l (Hid : Byte.to_nat id < 8) :
  RegisterIdentifier loaders id l = Ret (vinsert (nat_to_fin Hid) l loaders).
Proof.
  unfold RegisterIdentifier. destruct (decide (Byte.to_nat id < 8)) as [H|]; [|lia].
  by rewrite (nat_to_fin_proof_irrel _ _ H Hid).
Qed.

Lemma index_Ret loaders n (Hn : n < 8) :
  index loaders n = Ret (loaders !!! nat_to_fin Hn).
Proof.
  unfold index. destruct (decide (n < 8)) as [H|]; [|lia].
  by rewrite (nat_to_fin_proof_irrel _ _ H Hn).
Qed.

Lemma index_vinsert loaders (m n : nat) l (Hm : m < 8) :
  index (vinsert (nat_to_fin Hm) l loaders) n =
  if decide (n = m) then Ret l else index loaders n.
Proof.
  case_decide as Hnm.
  - subst n. rewrite (index_Ret _ _ Hm). f_equal. apply vlookup_insert.
  - destruct (decide (n < 8)) as [Hn|Hn].
    + rewrite !(index_Ret _ _ Hn). f_equal. apply vlookup_insert_ne.
      intros Heq. apply (f_equal fin_to_nat) in Heq.
      rewrite !fin_to_nat_to_fin in Heq. done.
    + by rewrite !index_out_of_range_panics by lia.
Qed.

End Registering.

(** X11: what is registered is what is loaded.  For a tag below 8,
    [RegisterIdentifier] returns a table in which [LoadIdentifier], on a
    cursor without error whose next byte is that tag, calls the loader
    registered with the cursor moved past the tag byte; the slots of the
    other tags are as they were. *)
Theorem Register_then_Load {Identifier : Type}
    (loaders : loader_table Identifier) (id : byte)
    (l : IdentifierLoader Identifier) (bs : list byte) :
  Byte.to_nat id < 8 →
  ∃ loaders',
    RegisterIdentifier loaders id (Some l) = Ret loaders' ∧
    LoadIdentifier loaders' (cursor (id :: bs)) =
      l (mkLoadSaver (id :: bs) 1 None) ∧
    ∀ n, n ≠ Byte.to_nat id → index loaders' n = index loaders n.
Proof.
  intros Hid. eexists. split; [apply (RegisterIdentifier_Ret _ _ _ Hid)|].
  split.
  - unfold LoadIdentifier. rewrite LoadByte_healthy, index_vinsert.
    by rewrite decide_True.
  - intros n Hn. rewrite index_vinsert. by rewrite decide_False.
Qed.

Lemma Register_then_Load_witness :
  Byte.to_nat x03 < 8 ∧
  ∃ loaders',
    RegisterIdentifier sample.registry x03 (Some sample.pronom_loader)
      = Ret loaders' ∧
    LoadIdentifier loaders' (cursor [x03; x2a]) =
      sample.pronom_loader (mkLoadSaver [x03; x2a] 1 None) ∧
    ∀ n, n ≠ Byte.to_nat x03 → index loaders' n = index sample.registry n.
Proof.
  split; [vm_compute; lia|].
  apply (Register_then_Load sample.registry x03 sample.pronom_loader [x2a]).
  vm_compute; lia.
Defined.

(** X12: how registrations compose.  A tag from 8 on makes
    [RegisterIdentifier] panic, whatever the table and the loader.  For
    tags below 8, registering twice under one tag leaves the table that
    the second registration alone gives, and registrations under two
    different tags give the same table in either order. *)
Theorem Register_compose {Identifier : Type}
    (loaders : loader_table Identifier) (id id' : byte)
    (l l' : option (IdentifierLoader Identifier)) :
  (8 ≤ Byte.to_nat id →
   RegisterIdentifier loaders id l = Panic index_out_of_range) ∧
  (Byte.to_nat id < 8 →
   RegisterIdentifier loaders id l ≫= (fun t => RegisterIdentifier t id l')
   = RegisterIdentifier loaders id l') ∧
  (Byte.to_nat id < 8 → Byte.to_nat id' < 8 → id ≠ id' →
   RegisterIdentifier loaders id l ≫= (fun t => RegisterIdentifier t id' l')
   = RegisterIdentifier loaders id' l' ≫= (fun t => RegisterIdentifier t id l)).
Proof.
  split; [|split].
  - intros Hid. unfold RegisterIdentifier. case_decide; [lia|done].
  - intros Hid. rewrite !(RegisterIdentifier_Ret _ _ _ Hid). simpl.
    rewrite (RegisterIdentifier_Ret _ _ _ Hid). f_equal.
    unfold loader_table in *.
    apply vec_eq. intros i. destruct (decide (i = nat_to_fin Hid)) as [->|Hi].
    + by rewrite !vlookup_insert.
    + by rewrite !vlookup_insert_ne.
  - intros Hid Hid' Hne.
    rewrite (RegisterIdentifier_Ret _ _ _ Hid),
      (RegisterIdentifier_Ret _ _ _ Hid'). simpl.
    rewrite (RegisterIdentifier_Ret _ _ _ Hid),
      (RegisterIdentifier_Ret _ _ _ Hid'). f_equal.
    assert (nat_to_fin Hid ≠ nat_to_fin Hid') as Hfin.
    { intros Heq. apply (f_equal fin_to_nat) in Heq.
      rewrite !fin_to_nat_to_fin in Heq.
      apply Hne. assert (Some id = Some id') as [= ?]; [|done].
      by rewrite <- !Byte.of_to_nat, Heq. }
    unfold loader_table in *.
    apply vec_eq. intros i.
    destruct (decide (i = nat_to_fin Hid)) as [->|Hi].
    + rewrite vlookup_insert_ne, !vlookup_insert by done. done.
    + destruct (decide (i = nat_to_fin Hid')) as [->|Hi'].
      * rewrite vlookup_insert, vlookup_insert_ne, vlookup_insert by done. done.
      * by rewrite !vlookup_insert_ne.
Qed.

Lemma Register_compose_witness :
  (8 ≤ Byte.to_nat x08 ∧
   RegisterIdentifier sample.registry x08 (Some sample.pronom_loader)
   = Panic index_out_of_range) ∧
  (Byte.to_nat x01 < 8 ∧
   RegisterIdentifier sample.registry x01 (Some sample.pronom_loader)
     ≫= (fun t => RegisterIdentifier t x01 None)
   = RegisterIdentifier sample.registry x01 None) ∧
  (Byte.to_nat x01 < 8 ∧ Byte.to_nat x02 < 8 ∧ x01 ≠ x02 ∧
   RegisterIdentifier sample.registry x01 (Some sample.pronom_loader)
     ≫= (fun t => RegisterIdentifier t x02 None)
   = RegisterIdentifier sample.registry x02 None
     ≫= (fun t => RegisterIdentifier t x01 (Some sample.pronom_loader))).
Proof.
  destruct (Register_compose sample.registry x08 x08
              (Some sample.pronom_loader) None) as (Hpanic & _ & _).
  destruct (Register_compose sample.registry x01 x02
              (Some sample.pronom_loader) None) as (_ & Htwice & Hswap).
  assert (8 ≤ Byte.to_nat x08) as H8 by (vm_compute; lia).
  assert (Byte.to_nat x01 < 8) as H1 by (vm_compute; lia).
  assert (Byte.to_nat x02 < 8) as H2 by (vm_compute; lia).
  assert (x01 ≠ x02) as Hne by discriminate.
  split; [split; [exact H8 | exact (Hpanic H8)]|].
  split; [split; [exact H1 | exact (Htwice H1)]|].
  split; [exact H1|]. split; [exact H2|]. split; [exact Hne|].
  exact (Hswap H1 H2 Hne).
Defined.

(** ** The table at every point of the loops *)

Section Throughout.
Context `{World}.

Lemma entries_reader_of (fs : list File) (e : error) :
  entries (reader_of fs e) = fs.
Proof. induction fs as [|f fs IH]; simpl; [done|]. by rewrite IH. Qed.

Lemma tagged_app i (rs1 rs2 : list Reader) :
  tagged i (rs1 ++ rs2) = tagged i rs1 ++ tagged (i + length rs1) rs2.
Proof.
  revert i. induction rs1 as [|rdr rs1 IH]; intros i; simpl.
  - by rewrite Nat.add_0_r.
  - rewrite IH, <- app_assoc. by rewrite Nat.add_succ_r.
Qed.

Lemma tagged_cut (rs1 : list Reader) (fs1 : list File) :
  tagged 0 (cut rs1 fs1) = tagged 0 rs1 ++ (pair (length rs1) <$> fs1).
Proof.
  unfold cut. rewrite tagged_app. simpl.
  by rewrite entries_reader_of, app_nil_r.
Qed.

Lemma tagged_split (rs1 rs2 : list Reader) (rdr : Reader) (fs1 fs2 : list File) :
  entries rdr = fs1 ++ fs2 →
  tagged 0 (rs1 ++ rdr :: rs2) =
  tagged 0 (cut rs1 fs1)
    ++ (pair (length rs1) <$> fs2) ++ tagged (S (length rs1)) rs2.
Proof.
  intros He. rewrite tagged_cut, tagged_app. simpl.
  by rewrite He, fmap_app, <- !app_assoc.
Qed.

Lemma of_set_beyond j i (readers : list Reader) :
  i + length readers ≤ j → of_set j (tagged i readers) = [].
Proof.
  intros Hj. unfold of_set.
  pose proof (tagged_bound i readers) as Hb.
  induction Hb as [|p es Hp _ IH]; [done|].
  by rewrite filter_cons_False by lia.
Qed.

Lemma resume_after join n i rdr rest (t : Table) :
  resume join n i rdr rest t =
  after join n ((pair i <$> entries rdr) ++ tagged (S i) rest) t.
Proof.
  unfold resume. rewrite drain_after, after_app.
  destruct (after join n (pair i <$> entries rdr) t) as [t1|]; simpl; [|done].
  rewrite consume_after. by destruct (after join n (tagged (S i) rest) t1).
Qed.

(** The loops on the readers as far as read, with rows made for all the
    readers: they end without panic, and the loops taken up from their
    table end with the table of the whole run. *)
Lemma consume_cut join (rs1 rs2 : list Reader) (rdr : Reader)
    (fs1 fs2 : list File) :
  entries rdr = fs1 ++ fs2 →
  ∃ t tf,
    consume join (length (rs1 ++ rdr :: rs2)) 0 (cut rs1 fs1) Table_empty
      = Ret (t, nexts 0 (cut rs1 fs1)) ∧
    represents join (length (rs1 ++ rdr :: rs2)) (tagged 0 (cut rs1 fs1)) t ∧
    resume join (length (rs1 ++ rdr :: rs2)) (length rs1)
      (reader_of fs2 (final rdr)) rs2 t = Ret tf ∧
    table_of join (rs1 ++ rdr :: rs2) = Ret tf.
Proof.
  intros He. pose proof (tagged_split rs1 rs2 rdr fs1 fs2 He) as Hsplit.
  pose proof (tagged_bound 0 (rs1 ++ rdr :: rs2)) as Hb. rewrite Hsplit in Hb.
  apply Forall_app in Hb as [Hb _].
  destruct (after_represents join (length (rs1 ++ rdr :: rs2)) []
              (tagged 0 (cut rs1 fs1)) Table_empty) as (t & Ht & Hrep).
  { apply represents_empty. }
  { eapply Forall_impl; [exact Hb|]. simpl. intros p ?. lia. }
  destruct (table_of_represents join (rs1 ++ rdr :: rs2)) as (tf & Htf & _).
  exists t, tf. split; [by rewrite consume_after, Ht|]. split; [done|].
  split; [|done].
  rewrite resume_after, entries_reader_of. unfold table_of in Htf.
  by rewrite Hsplit, after_app, Ht in Htf.
Qed.

(** The table the loops of [Compare] end with, and what is written of it. *)
Lemma Compare_consume w join paths evs0 readers :
  2 ≤ length paths → open_all paths = (evs0, inr readers) →
  ∃ r t,
    Compare w join paths = Ret r ∧
    consume join (length readers) 0 readers Table_empty
      = Ret (t, nexts 0 readers) ∧
    table_of join readers = Ret t ∧
    represents join (length readers) (tagged 0 readers) t ∧
    length readers = length paths ∧
    written (log r) `prefix_of` mismatches t ∧
    (ret r = None → written (log r) = mismatches t).
Proof.
  intros Hlen Ho.
  destruct (Compare_run w join paths evs0 readers Hlen Ho)
    as (r & t & Hr & Ht & Hrep & Hn & Hret & Hw & _ & _).
  exists r, t. split; [done|]. split.
  { rewrite consume_after. unfold table_of in Ht. by rewrite Ht. }
  split; [done|]. split; [done|]. split; [done|]. rewrite Hw, Hret.
  split; [apply attempted_prefix | apply first_write_error_None].
Qed.

End Throughout.

(** C6: at every point of the reading loops of [Compare], that is when
    they have gone through the readers [rs1] and the entries [fs1] of the
    next reader, the table they hold (the one these loops, with rows made
    for all the readers, build from the input cut there, and from which
    they go on to the table of the whole run) has one row for every key
    seen and no other, listed in [files] without repetition in the order
    in which the keys were first seen; every row has 1 + N columns; column
    0 is the path of the first entry seen with the key; a column whose
    reader has given no entry with the key holds "MISSING".  The records
    [Compare] writes are rows of the final table that do not match, in the
    order in which their keys were first seen, and all of them when no
    write fails. *)
Theorem table_invariant `{World} (w : Writer) (join : Z) (paths : list string)
    (evs0 : list event) (readers rs1 rs2 : list Reader) (rdr : Reader)
    (fs1 fs2 : list File) :
  2 ≤ length paths → open_all paths = (evs0, inr readers) →
  readers = rs1 ++ rdr :: rs2 → entries rdr = fs1 ++ fs2 →
  ∃ t tf r,
    consume join (length readers) 0 (cut rs1 fs1) Table_empty
      = Ret (t, nexts 0 (cut rs1 fs1)) ∧
    resume join (length readers) (length rs1) (reader_of fs2 (final rdr)) rs2 t
      = Ret tf ∧
    consume join (length readers) 0 readers Table_empty
      = Ret (tf, nexts 0 readers) ∧
    NoDup (files t) ∧
    files t = first_seen (keygen join <$> (cut rs1 fs1 ≫= entries)) ∧
    (∀ key, is_Some (results t !! key) ↔ key ∈ files t) ∧
    (∀ key row, results t !! key = Some row →
       length row = 1 + length paths ∧
       (∃ f0, first_with join key (cut rs1 fs1 ≫= entries) = Some f0 ∧
              row !! 0 = Some (Path f0)) ∧
       (∀ j rdr', cut rs1 fs1 !! j = Some rdr' →
                  key ∉ keygen join <$> entries rdr' →
                  row !! S j = Some MISSING) ∧
       (∀ j, length (cut rs1 fs1) ≤ j → j < length paths →
             row !! S j = Some MISSING)) ∧
    Compare w join paths = Ret r ∧
    written (log r) `prefix_of`
      (fun key => results tf !!! key)
        <$> filter (fun key => matches (results tf !!! key) = false)
                   (first_seen (keygen join <$> (readers ≫= entries))) ∧
    (ret r = None →
     written (log r) =
       (fun key => results tf !!! key)
         <$> filter (fun key => matches (results tf !!! key) = false)
                    (first_seen (keygen join <$> (readers ≫= entries)))).
Proof.
  intros Hlen Ho Hreaders He.
  destruct (Compare_consume w join paths evs0 readers Hlen Ho)
    as (r & tf & Hr & Hc & Htf & [Hff _] & Hn & Hpre & Hall).
  destruct (consume_cut join rs1 rs2 rdr fs1 fs2 He)
    as (t & tf' & Hcut & [Hf Hrows] & Hres & Htf').
  rewrite <- Hreaders in Hcut, Hrows, Hres, Htf'.
  assert (tf' = tf) as -> by congruence.
  rewrite keys_of_tagged in Hf, Hff.
  exists t, tf, r. split; [done|]. split; [done|]. split; [done|].
  split; [rewrite Hf; apply NoDup_first_seen|]. split; [done|]. split.
  { intros key. rewrite Hrows, row_of_is_Some, Hf, elem_of_first_seen.
    by rewrite keys_of_tagged. }
  split.
  { intros key row Hrow. rewrite Hrows in Hrow. split.
    { apply row_of_length in Hrow. lia. }
    split.
    { apply row_of_Some in Hrow as (f0 & Hf0 & ->).
      rewrite snd_tagged in Hf0. eauto. }
    split.
    - intros j rdr' Hj Hno.
      rewrite (row_of_column _ _ _ _ _ _ Hrow).
      + rewrite (column_tagged _ _ _ _ _ Hj). by rewrite cell_MISSING.
      + apply lookup_lt_Some in Hj. unfold cut in Hj.
        rewrite length_app in Hj. simpl in Hj.
        rewrite Hreaders, length_app. simpl. lia.
    - intros j Hge Hlt. rewrite (row_of_column _ _ _ _ _ _ Hrow) by lia.
      f_equal. unfold column.
      by rewrite of_set_beyond by (simpl; lia). }
  split; [done|]. rewrite <- Hff, <- mismatches_keys. done.
Qed.

Lemma table_invariant_witness :
  2 ≤ length ["a.csv"; "b.csv"; "c.csv"] ∧
  open_all (H := sample.disk) ["a.csv"; "b.csv"; "c.csv"] =
    ([EvOpen "a.csv"; EvOpen "b.csv"; EvOpen "c.csv"],
     inr [sample.set_a; sample.set_b; sample.set_c]) ∧
  [sample.set_a; sample.set_b; sample.set_c] =
    [] ++ sample.set_a :: [sample.set_b; sample.set_c] ∧
  entries sample.set_a =
    [sample.entry "x" ["fmt/1"]] ++ [sample.entry "/d/y" ["b"; "a"; "a"]] ∧
  ∃ t tf r,
    consume (H := sample.disk) Join.Path
      (length [sample.set_a; sample.set_b; sample.set_c]) 0
      (cut [] [sample.entry "x" ["fmt/1"]]) Table_empty
      = Ret (t, nexts 0 (cut [] [sample.entry "x" ["fmt/1"]])) ∧
    resume (H := sample.disk) Join.Path
      (length [sample.set_a; sample.set_b; sample.set_c]) (length ([] : list Reader))
      (reader_of [sample.entry "/d/y" ["b"; "a"; "a"]] (final sample.set_a))
      [sample.set_b; sample.set_c] t = Ret tf ∧
    consume (H := sample.disk) Join.Path
      (length [sample.set_a; sample.set_b; sample.set_c]) 0
      [sample.set_a; sample.set_b; sample.set_c] Table_empty
      = Ret (tf, nexts 0 [sample.set_a; sample.set_b; sample.set_c]) ∧
    NoDup (files t) ∧
    files t = first_seen (keygen (H := sample.disk) Join.Path
                <$> (cut [] [sample.entry "x" ["fmt/1"]] ≫= entries)) ∧
    (∀ key, is_Some (results t !! key) ↔ key ∈ files t) ∧
    (∀ key row, results t !! key = Some row →
       length row = 1 + length ["a.csv"; "b.csv"; "c.csv"] ∧
       (∃ f0, first_with (H := sample.disk) Join.Path key
                (cut [] [sample.entry "x" ["fmt/1"]] ≫= entries) = Some f0 ∧
              row !! 0 = Some (Path f0)) ∧
       (∀ j rdr', cut [] [sample.entry "x" ["fmt/1"]] !! j = Some rdr' →
                  key ∉ keygen (H := sample.disk) Join.Path <$> entries rdr' →
                  row !! S j = Some MISSING) ∧
       (∀ j, length (cut [] [sample.entry "x" ["fmt/1"]]) ≤ j →
             j < length ["a.csv"; "b.csv"; "c.csv"] →
             row !! S j = Some MISSING)) ∧
    Compare (H := sample.disk) (sample.fresh 10) Join.Path
      ["a.csv"; "b.csv"; "c.csv"] = Ret r ∧
    written (log r) `prefix_of`
      (fun key => results tf !!! key)
        <$> filter (fun key => matches (results tf !!! key) = false)
                   (first_seen (keygen (H := sample.disk) Join.Path
                      <$> ([sample.set_a; sample.set_b; sample.set_c]
                             ≫= entries))) ∧
    (ret r = None →
     written (log r) =
       (fun key => results tf !!! key)
         <$> filter (fun key => matches (results tf !!! key) = false)
                    (first_seen (keygen (H := sample.disk) Join.Path
                       <$> ([sample.set_a; sample.set_b; sample.set_c]
                              ≫= entries)))).
Proof.
  split; [simpl; lia|]. split; [reflexivity|]. split; [reflexivity|].
  split; [reflexivity|].
  apply (table_invariant (H := sample.disk) (sample.fresh 10) Join.Path
           ["a.csv"; "b.csv"; "c.csv"]
           [EvOpen "a.csv"; EvOpen "b.csv"; EvOpen "c.csv"]
           [sample.set_a; sample.set_b; sample.set_c]
           [] [sample.set_b; sample.set_c] sample.set_a
           [sample.entry "x" ["fmt/1"]]
           [sample.entry "/d/y" ["b"; "a"; "a"]]);
    [simpl; lia | reflexivity | reflexivity | reflexivity].
Defined.

(** ** A key that one reader has more than once *)

(** C10, read with the first occurrence within the reader that has the key
    twice, fails when an earlier reader has the key: the row is made at the
    first sight of the key in the run.  Under the join by hash the second
    file has the key "h1" twice, first with the path "/a/x"; the first file
    has it with the path "/z/x", and that is the path of the row. *)
Lemma path_from_earlier_reader :
  ∃ r t,
    Compare (H := sample.disk) (sample.fresh 10) Join.Hash
      ["first.csv"; "twice.csv"] = Ret r ∧
    consume (H := sample.disk) Join.Hash 2 0
      [sample.set_first; sample.set_twice] Table_empty
      = Ret (t, nexts 0 [sample.set_first; sample.set_twice]) ∧
    1 < length (filter (fun f => keygen (H := sample.disk) Join.Hash f = "h1")
                       (entries sample.set_twice)) ∧
    first_with (H := sample.disk) Join.Hash "h1" (entries sample.set_twice)
      = Some (sample.hashed "/a/x" "h1" ["fmt/1"]) ∧
    results t !! "h1" = Some ["/z/x"; "fmt/1"; "fmt/2;fmt/3"] ∧
    written (log r) = [["/z/x"; "fmt/1"; "fmt/2;fmt/3"]].
Proof.
  eexists _, _. split; [by vm_compute|]. split; [by vm_compute|].
  split; [vm_compute; lia|]. split; [by vm_compute|].
  split; by vm_compute.
Qed.

(** C10, amended: when a key occurs more than once in the entries of the
    reader of index [i], the table the loops of [Compare] end with has
    exactly one row for the key.  Its place among the rows and its path
    column are those of the first entry with the key in the whole run,
    which is the first one of this reader only when no earlier reader has
    the key; column [i + 1] holds the identification strings of the last
    entry of this reader with the key, sorted and joined by semicolons.
    The records [Compare] writes are the rows of that table that do not
    match, all of them when no write fails. *)
Theorem repeated_key_last_wins `{World} (w : Writer) (join : Z)
    (paths : list string) (evs0 : list event) (readers : list Reader)
    (i : nat) (rdr : Reader) (key : string) :
  2 ≤ length paths → open_all paths = (evs0, inr readers) →
  readers !! i = Some rdr →
  1 < length (filter (fun f => keygen join f = key) (entries rdr)) →
  ∃ r t row ffirst flast,
    Compare w join paths = Ret r ∧
    consume join (length readers) 0 readers Table_empty
      = Ret (t, nexts 0 readers) ∧
    written (log r) `prefix_of` mismatches t ∧
    (ret r = None → written (log r) = mismatches t) ∧
    length (filter (fun k => k = key) (files t)) = 1 ∧
    files t = first_seen (keygen join <$> (readers ≫= entries)) ∧
    results t !! key = Some row ∧
    first_with join key (readers ≫= entries) = Some ffirst ∧
    row !! 0 = Some (Path ffirst) ∧
    last_with join key (entries rdr) = Some flast ∧
    row !! S i =
      Some (strings.Join (sort.Strings (core.String <$> IDs flast)) ";") ∧
    ((∀ j rdr', j < i → readers !! j = Some rdr' →
                key ∉ keygen join <$> entries rdr') →
     first_with join key (entries rdr) = Some ffirst).
Proof.
  intros Hlen Ho Hi Hmany.
  destruct (Compare_consume w join paths evs0 readers Hlen Ho)
    as (r & t & Hr & Hc & Ht & Hrep & Hn & Hpre & Hall).
  pose proof Hrep as [Hf _]. rewrite keys_of_tagged in Hf.
  destruct (last_with join key (entries rdr)) as [flast|] eqn:Hlast.
  2:{ unfold last_with in Hlast. apply last_None in Hlast.
      rewrite Hlast in Hmany. simpl in Hmany. lia. }
  destruct (first_with join key (entries rdr)) as [f1|] eqn:Hfirst.
  2:{ unfold first_with in Hfirst. apply head_None in Hfirst.
      rewrite Hfirst in Hmany. simpl in Hmany. lia. }
  assert (rdr ∈ readers) as Hin by by eapply list_elem_of_lookup_2.
  assert (key ∈ keygen join <$> (readers ≫= entries)) as Hkey.
  { apply key_in_reader. exists rdr. split; [done|].
    apply last_with_Some in Hlast as [Hl <-]. by apply list_elem_of_fmap_2. }
  pose proof (represents_cells join readers t key Hrep) as Hrow.
  destruct (first_with join key (readers ≫= entries)) as [ffirst|] eqn:Hff.
  2:{ apply first_with_None in Hff. done. }
  simpl in Hrow.
  exists r, t, (Path ffirst :: (cell join key <$> readers)), ffirst, flast.
  split; [done|]. split; [done|]. split; [done|]. split; [done|]. split.
  { apply NoDup_once; rewrite Hf;
      [apply NoDup_first_seen | by apply elem_of_first_seen]. }
  split; [done|]. split; [done|]. split; [done|]. split; [done|].
  split; [done|]. split.
  - simpl. rewrite list_lookup_fmap, Hi. simpl. unfold cell.
    by rewrite Hlast.
  - intros Hbefore.
    pose proof (first_with_tagged join key 0 readers i rdr Hi Hbefore) as Hsame.
    rewrite snd_tagged, Hff, Hfirst in Hsame. symmetry. apply Hsame. eauto.
Qed.

Lemma repeated_key_last_wins_witness :
  2 ≤ length ["c.csv"; "twice.csv"] ∧
  open_all (H := sample.disk) ["c.csv"; "twice.csv"] =
    ([EvOpen "c.csv"; EvOpen "twice.csv"],
     inr [sample.set_c; sample.set_twice]) ∧
  [sample.set_c; sample.set_twice] !! 1 = Some sample.set_twice ∧
  1 < length (filter (fun f => keygen (H := sample.disk) Join.Hash f = "h1")
                     (entries sample.set_twice)) ∧
  ∃ r t row ffirst flast,
    Compare (H := sample.disk) (sample.fresh 10) Join.Hash
      ["c.csv"; "twice.csv"] = Ret r ∧
    consume (H := sample.disk) Join.Hash
      (length [sample.set_c; sample.set_twice]) 0
      [sample.set_c; sample.set_twice] Table_empty
      = Ret (t, nexts 0 [sample.set_c; sample.set_twice]) ∧
    written (log r) `prefix_of` mismatches t ∧
    (ret r = None → written (log r) = mismatches t) ∧
    length (filter (fun k => k = "h1") (files t)) = 1 ∧
    files t = first_seen (keygen (H := sample.disk) Join.Hash
                <$> ([sample.set_c; sample.set_twice] ≫= entries)) ∧
    results t !! "h1" = Some row ∧
    first_with (H := sample.disk) Join.Hash "h1"
      ([sample.set_c; sample.set_twice] ≫= entries) = Some ffirst ∧
    row !! 0 = Some (Path ffirst) ∧
    last_with (H := sample.disk) Join.Hash "h1" (entries sample.set_twice)
      = Some flast ∧
    row !! 2 =
      Some (strings.Join (sort.Strings (core.String <$> IDs flast)) ";") ∧
    ((∀ j rdr', j < 1 → [sample.set_c; sample.set_twice] !! j = Some rdr' →
                "h1" ∉ keygen (H := sample.disk) Join.Hash <$> entries rdr') →
     first_with (H := sample.disk) Join.Hash "h1" (entries sample.set_twice)
       = Some ffirst).
Proof.
  split; [simpl; lia|]. split; [reflexivity|]. split; [reflexivity|].
  split; [vm_compute; lia|].
  apply (repeated_key_last_wins (H := sample.disk) (sample.fresh 10) Join.Hash
           ["c.csv"; "twice.csv"] [EvOpen "c.csv"; EvOpen "twice.csv"]
           [sample.set_c; sample.set_twice] 1 sample.set_twice "h1");
    [simpl; lia | reflexivity | reflexivity | vm_compute; lia].
Defined.
